(** * db-query: the safety classifier, the result formatter, the drivers'
      row capping and the connection registry, embedded from the
      TypeScript sources and checked against the specification. *)

From Stdlib Require Import String Ascii DecimalString.
From stdpp Require Import gmap list.
From Stdlib Require Import ZArith NArith List Bool Lia.
Import ListNotations.

Local Open Scope N_scope.

(* ===================================================================== *)
(** * Part I: the program *)
(* ===================================================================== *)

(** ** JavaScript strings and the built-ins the sources call *)

Module JS.

(** A JavaScript string is a sequence of UTF-16 code units; [length],
    [slice], [padEnd] and the regular expressions of the sources all
    count code units. *)
Definition char := N.
Definition jstring := list char.

(** An ASCII literal of the source as a [jstring]. *)
Definition str (s : String.string) : jstring :=
  List.map Ascii.N_of_ascii (String.list_ascii_of_string s).
Arguments str s%_string.

Definition in_range (lo hi c : char) : bool := (lo <=? c) && (c <=? hi).

(** LineTerminator: LF, CR, LS, PS. *)
Definition is_line_terminator (c : char) : bool :=
  (c =? 10) || (c =? 13) || (c =? 8232) || (c =? 8233).

(** WhiteSpace and LineTerminator: what [trim] removes and what [\s]
    matches. *)
Definition is_space (c : char) : bool :=
  in_range 9 13 c || (c =? 32) || (c =? 160) || (c =? 5760)
  || in_range 8192 8202 c || (c =? 8232) || (c =? 8233) || (c =? 8239)
  || (c =? 8287) || (c =? 12288) || (c =? 65279).

(** [\w] without the unicode flag: [A-Za-z0-9_]. *)
Definition is_word (c : char) : bool :=
  in_range 65 90 c || in_range 97 122 c || in_range 48 57 c || (c =? 95).

Fixpoint drop_while (p : char -> bool) (s : jstring) : jstring :=
  match s with
  | [] => []
  | c :: r => if p c then drop_while p r else s
  end.

Fixpoint take_while (p : char -> bool) (s : jstring) : jstring :=
  match s with
  | [] => []
  | c :: r => if p c then c :: take_while p r else []
  end.

Definition trimStart (s : jstring) : jstring := drop_while is_space s.
Definition trimEnd (s : jstring) : jstring := rev (drop_while is_space (rev s)).
Definition trim (s : jstring) : jstring := trimEnd (trimStart s).

Fixpoint startsWith (s prefix : jstring) {struct prefix} : bool :=
  match prefix, s with
  | [], _ => true
  | p :: prefix', c :: s' => (c =? p) && startsWith s' prefix'
  | _ :: _, [] => false
  end.

Fixpoint includes (s needle : jstring) : bool :=
  startsWith s needle
  || match s with
     | [] => false
     | _ :: r => includes r needle
     end.

Fixpoint join (sep : jstring) (parts : list jstring) : jstring :=
  match parts with
  | [] => []
  | [p] => p
  | p :: rest => p ++ sep ++ join sep rest
  end.

Definition repeat_str (s : jstring) (n : nat) : jstring :=
  List.concat (List.repeat s n).

(** [s.padEnd(width)]: pads with spaces up to [width] code units. *)
Definition padEnd (s : jstring) (width : nat) : jstring :=
  s ++ List.repeat 32 (width - length s)%nat.

(** [arr.slice(0, n)] (also [str.slice(0, n)]) for an integer [n]: a
    negative [n] counts from the end. *)
Definition slice0 {A} (l : list A) (n : Z) : list A :=
  if (n <? 0)%Z then firstn (Z.to_nat (Z.of_nat (length l) + n)) l
  else firstn (Z.to_nat n) l.

(** Decimal rendering of integers in template literals. *)
Definition nat_to_jstring (n : nat) : jstring :=
  str (DecimalString.NilEmpty.string_of_uint (Nat.to_uint n)).

Definition Z_to_jstring (z : Z) : jstring :=
  if (z <? 0)%Z then 45 :: nat_to_jstring (Z.to_nat (- z))
  else nat_to_jstring (Z.to_nat z).

(** *** Objects

    An array index: the canonical decimal text of an integer from 0 to
    2^32 - 2. [Object.keys] lists the keys that are array indices
    first, in ascending order, and the other keys after them in the
    order they were created. *)
Definition is_decimal_digit (c : char) : bool := in_range 48 57 c.

Definition decimal_value (ds : jstring) : N :=
  fold_left (fun acc d => 10 * acc + (d - 48)) ds 0.

Definition array_index (k : jstring) : option N :=
  match k with
  | [] => None
  | c :: rest =>
      if forallb is_decimal_digit k
         && (negb (c =? 48) || match rest with [] => true | _ => false end)
         && (length k <=? 10)%nat
         && (decimal_value k <? 4294967295)
      then Some (decimal_value k)
      else None
  end.

Fixpoint insert_index (e : N * jstring) (l : list (N * jstring)) : list (N * jstring) :=
  match l with
  | [] => [e]
  | e' :: l' => if fst e <=? fst e' then e :: l else e' :: insert_index e l'
  end.

Definition sort_indices (l : list (N * jstring)) : list (N * jstring) :=
  fold_right insert_index [] l.

(** [Object.keys(o)] from the keys of [o] in the order of creation. *)
Definition own_keys_order (created : list jstring) : list jstring :=
  List.map snd
    (sort_indices
       (List.flat_map (fun k => match array_index k with
                                | Some i => [(i, k)]
                                | None => []
                                end) created))
  ++ List.filter (fun k => match array_index k with Some _ => false | None => true end)
       created.

(** The functions a plain object inherits from [Object.prototype], by
    the name of the property; [constructor] is the function [Object],
    and [__proto__] reads as [Object.prototype] itself. *)
Definition Object_prototype_methods : list jstring :=
  [ str "__defineGetter__"; str "__defineSetter__"; str "hasOwnProperty";
    str "__lookupGetter__"; str "__lookupSetter__"; str "isPrototypeOf";
    str "propertyIsEnumerable"; str "toString"; str "valueOf"; str "toLocaleString" ].

Definition is_prototype_method (k : jstring) : bool :=
  existsb (fun m => if decide (m = k) then true else false) Object_prototype_methods.

(** Is [o[k]] something else than [undefined] on an object without an
    own property [k]. *)
Definition inherits (k : jstring) : bool :=
  (if decide (k = str "constructor") then true else false)
  || (if decide (k = str "__proto__") then true else false)
  || is_prototype_method k.

(** [String(f)] for a built-in function of that name. *)
Definition native_function_text (fname : jstring) : jstring :=
  str "function " ++ fname ++ str "() { [native code] }".

(** Canonicalize of a case-insensitive regular expression without the
    unicode flag, on the part that can meet an ASCII pattern character:
    a code unit below 128 is upper-cased; a code unit from 128 on is
    never mapped below 128 (the standard keeps it unchanged when its
    upper case would be ASCII), so it cannot equal an ASCII pattern
    character before or after canonicalization. *)
Definition canonicalize (c : char) : char :=
  if in_range 97 122 c then c - 32 else c.

(** *** Regular expressions

    The constructs the sources use, with the semantics of the
    backtracking matcher of the language standard. *)
Inductive regex :=
| Chr (c : char)                    (* a pattern character *)
| Cls (p : char -> bool)            (* a class, a class escape, or the dot *)
| Seq (r1 r2 : regex)
| Alt (r1 r2 : regex)               (* r1|r2, r1 tried first *)
| Star (greedy : bool) (r : regex)  (* r* when greedy, r*? when not *)
| AtEnd                             (* $ without the multiline flag *)
| AtStart                           (* ^ without the multiline flag *)
| WordB.                            (* \b *)

(** The assertion [\b] between two neighbouring code units (absent at
    either end of the input). *)
Definition is_word_at (o : option char) : bool :=
  match o with
  | Some c => is_word c
  | None => false
  end.

Definition word_boundary (prev next : option char) : bool :=
  xorb (is_word_at prev) (is_word_at next).

(** A continuation receives the code unit before the current position
    and the rest of the input, and completes the match or fails. *)
Definition Kont := option char -> jstring -> option jstring.

(** The matcher of an expression: it tries its ways through the input in
    the standard's order and returns what the first continuation that
    succeeds returns. *)
Definition Sem := option char -> jstring -> Kont -> option jstring.

(** Repetition. A greedy star first tries one more round of the body and
    then the continuation; a lazy one the other way round. A round that
    consumes nothing is refused, so the length of the input bounds the
    number of rounds. *)
Fixpoint star_loop (greedy : bool) (body : Sem) (fuel : nat)
         (prev : option char) (s : jstring) (k : Kont) : option jstring :=
  match fuel with
  | O => k prev s
  | S fuel' =>
      let again (_ : unit) :=
        body prev s (fun prev' s' =>
                       if (length s' <? length s)%nat
                       then star_loop greedy body fuel' prev' s' k
                       else None) in
      if greedy then
        match again tt with
        | Some rest => Some rest
        | None => k prev s
        end
      else
        match k prev s with
        | Some rest => Some rest
        | None => again tt
        end
  end.

Fixpoint run (ignoreCase : bool) (r : regex) : Sem :=
  match r with
  | Chr c => fun prev s k =>
      match s with
      | d :: s' =>
          if (if ignoreCase then canonicalize d =? canonicalize c else d =? c)
          then k (Some d) s' else None
      | [] => None
      end
  | Cls p => fun prev s k =>
      match s with
      | d :: s' => if p d then k (Some d) s' else None
      | [] => None
      end
  | Seq r1 r2 => fun prev s k =>
      run ignoreCase r1 prev s (fun prev' s' => run ignoreCase r2 prev' s' k)
  | Alt r1 r2 => fun prev s k =>
      match run ignoreCase r1 prev s k with
      | Some rest => Some rest
      | None => run ignoreCase r2 prev s k
      end
  | Star greedy r' => fun prev s k =>
      star_loop greedy (run ignoreCase r') (length s) prev s k
  | AtEnd => fun prev s k =>
      match s with
      | [] => k prev s
      | _ :: _ => None
      end
  | AtStart => fun prev s k =>
      match prev with
      | None => k prev s
      | Some _ => None
      end
  | WordB => fun prev s k =>
      if word_boundary prev (head s) then k prev s else None
  end.

(** The match of [r] that starts at the head of [s], [prev] being the
    code unit before it: its length in code units. *)
Definition exec (ignoreCase : bool) (r : regex) (prev : option char) (s : jstring)
  : option nat :=
  match run ignoreCase r prev s (fun _ rest => Some rest) with
  | Some rest => Some (length s - length rest)%nat
  | None => None
  end.

(** [re.test(s)]: is there a match at some position. *)
Fixpoint test_from (ignoreCase : bool) (r : regex) (prev : option char) (s : jstring) : bool :=
  match exec ignoreCase r prev s with
  | Some _ => true
  | None =>
      match s with
      | [] => false
      | c :: rest => test_from ignoreCase r (Some c) rest
      end
  end.

Definition test (ignoreCase : bool) (r : regex) (s : jstring) : bool :=
  test_from ignoreCase r None s.

(** [s.replace(re, empty)] for an expression without the global flag:
    the leftmost match is removed. *)
Fixpoint replace_first_from (ignoreCase : bool) (r : regex) (prev : option char)
         (s : jstring) : jstring :=
  match exec ignoreCase r prev s with
  | Some n => skipn n s
  | None =>
      match s with
      | [] => []
      | c :: rest => c :: replace_first_from ignoreCase r (Some c) rest
      end
  end.

Definition replace_first (ignoreCase : bool) (r : regex) (s : jstring) : jstring :=
  replace_first_from ignoreCase r None s.

(** [s.replace(re, empty)] with the global flag: matches are searched
    left to right, each search resuming where the previous match ended.
    [skip] counts the code units of the current match still to drop. *)
Fixpoint replace_all_from (ignoreCase : bool) (r : regex) (skip : nat)
         (prev : option char) (s : jstring) : jstring :=
  match s with
  | [] => []
  | c :: rest =>
      match skip with
      | S k => replace_all_from ignoreCase r k (Some c) rest
      | O =>
          match exec ignoreCase r prev s with
          | Some (S n) => replace_all_from ignoreCase r n (Some c) rest
          | _ => c :: replace_all_from ignoreCase r 0 (Some c) rest
          end
      end
  end.

Definition replace_all (ignoreCase : bool) (r : regex) (s : jstring) : jstring :=
  replace_all_from ignoreCase r 0 None s.

(** [/;\s*$/] *)
Definition re_trailing_semicolon : regex :=
  Seq (Chr 59) (Seq (Star true (Cls is_space)) AtEnd).

(** *** The same replacements, computed directly

    A matcher gives, for one fixed expression anchored at the head of
    its input, the length of the match found there, if any. *)
Definition matcher := jstring -> option nat.

Fixpoint remove_first (m : matcher) (s : jstring) : jstring :=
  match m s with
  | Some n => skipn n s
  | None =>
      match s with
      | [] => []
      | c :: r => c :: remove_first m r
      end
  end.

Fixpoint remove_all_from (m : matcher) (skip : nat) (s : jstring) : jstring :=
  match s with
  | [] => []
  | c :: r =>
      match skip with
      | S k => remove_all_from m k r
      | O =>
          match m s with
          | Some (S n) => remove_all_from m n r
          | _ => c :: remove_all_from m 0 r
          end
      end
  end.

Definition remove_all (m : matcher) (s : jstring) : jstring :=
  remove_all_from m 0 s.

(** The match of [/;\s*$/] at the head of [s]: a semicolon followed by
    white space only, up to the end of the input. *)
Definition match_trailing_semicolon : matcher := fun s =>
  match s with
  | c :: r => if (c =? 59) && forallb is_space r then Some (length s) else None
  | [] => None
  end.

End JS.

Import JS.

(** ** The query classifier that scans the whole statement
       (the source with [stripLiteralsAndComments]) *)

Module Safety.

Definition MUTATION_KEYWORDS : list jstring :=
  [ str "INSERT"; str "UPDATE"; str "DELETE"; str "DROP"; str "ALTER";
    str "TRUNCATE"; str "CREATE"; str "REPLACE"; str "MERGE"; str "GRANT";
    str "REVOKE" ].

Record SafetyResult := { allowed : bool; reason : option jstring }.

(** *** The expressions of the source *)

(** [/'(?:[^'\\]|\\.)*'/] for the single quote [q = 39]; the same
    expression with the double quote for [q = 34]. The dot refuses the
    line terminators. *)
Definition re_quoted (q : char) : regex :=
  Seq (Chr q)
      (Seq (Star true
              (Alt (Cls (fun c => negb ((c =? q) || (c =? 92))))
                   (Seq (Chr 92) (Cls (fun c => negb (is_line_terminator c))))))
           (Chr q)).

(** [/\/\*[\s\S]*?\*\//] *)
Definition re_block_comment : regex :=
  Seq (Chr 47) (Seq (Chr 42)
    (Seq (Star false (Cls (fun _ => true))) (Seq (Chr 42) (Chr 47)))).

(** [/--[^\n]*/] *)
Definition re_line_comment : regex :=
  Seq (Chr 45) (Seq (Chr 45) (Star true (Cls (fun c => negb (c =? 10))))).

(** The characters of a keyword, one after the other. *)
Fixpoint re_literal (kw : jstring) (after : regex) : regex :=
  match kw with
  | [] => after
  | c :: kw' => Seq (Chr c) (re_literal kw' after)
  end.

(** [\bKEYWORD\b] *)
Definition re_keyword (kw : jstring) : regex := Seq WordB (re_literal kw WordB).

Definition stripLiteralsAndComments (sql : jstring) : jstring :=
  replace_all false re_line_comment
    (replace_all false re_block_comment
       (replace_all false (re_quoted 34)
          (replace_all false (re_quoted 39) sql))).

(** [new RegExp(`\\b${keyword}\\b`, 'i').test(s)] *)
Definition test_keyword (kw s : jstring) : bool := test true (re_keyword kw) s.

(** *** The same matches, computed directly *)

(** The tail [(?:[^q\\]|\\.)*q] of a quoted region whose opening quote
    [q] is already consumed. The two alternatives start with different
    code units, so the engine has a single way through the input: a
    backslash takes the next code unit with it unless that one is a line
    terminator, and the first bare [q] closes. *)
Fixpoint quoted_tail (q : char) (s : jstring) : option nat :=
  match s with
  | [] => None
  | c :: r =>
      if c =? q then Some 1%nat
      else if c =? 92 then
        match r with
        | d :: r' =>
            if is_line_terminator d then None
            else option_map (fun n => S (S n)) (quoted_tail q r')
        | [] => None
        end
      else option_map S (quoted_tail q r)
  end.

Definition match_quoted (q : char) : matcher := fun s =>
  match s with
  | c :: r => if c =? q then option_map S (quoted_tail q r) else None
  | [] => None
  end.

(** The lazy [[\s\S]*?\*\/]: up to and including the first [*/]. *)
Fixpoint comment_tail (s : jstring) : option nat :=
  match s with
  | [] => None
  | a :: r =>
      match r with
      | b :: _ =>
          if (a =? 42) && (b =? 47) then Some 2%nat
          else option_map S (comment_tail r)
      | [] => None
      end
  end.

Definition match_block_comment : matcher := fun s =>
  match s with
  | a :: b :: r =>
      if (a =? 47) && (b =? 42)
      then option_map (fun n => S (S n)) (comment_tail r) else None
  | _ => None
  end.

Definition match_line_comment : matcher := fun s =>
  match s with
  | a :: b :: r =>
      if (a =? 45) && (b =? 45)
      then Some (S (S (length (take_while (fun c => negb (c =? 10)) r))))
      else None
  | _ => None
  end.

(** The four passes of [stripLiteralsAndComments]. *)
Definition strip_passes (sql : jstring) : jstring :=
  remove_all match_line_comment
    (remove_all match_block_comment
       (remove_all (match_quoted 34)
          (remove_all (match_quoted 39) sql))).

(** The keyword's characters at the head of [s], compared after
    Canonicalize; returns the last code unit consumed and the rest. *)
Fixpoint match_keyword (kw : jstring) (prev : option char) (s : jstring)
  : option (option char * jstring) :=
  match kw with
  | [] => Some (prev, s)
  | p :: kw' =>
      match s with
      | c :: s' =>
          if canonicalize c =? canonicalize p
          then match_keyword kw' (Some c) s' else None
      | [] => None
      end
  end.

(** [\bKEYWORD\b] anchored at the head of [s], [prev] being the code
    unit before it. *)
Definition keyword_at (kw : jstring) (prev : option char) (s : jstring) : bool :=
  word_boundary prev (head s)
  && match match_keyword kw prev s with
     | Some (last, rest) => word_boundary last (head rest)
     | None => false
     end.

Fixpoint keyword_search (kw : jstring) (prev : option char) (s : jstring) : bool :=
  keyword_at kw prev s
  || match s with
     | c :: r => keyword_search kw (Some c) r
     | [] => false
     end.

Definition multiple_statements_reason : jstring :=
  str "multiple statements not allowed".

(** [`${keyword} blocked — mutations are disabled ...`]; 8212 is the
    em dash. *)
Definition blocked_reason (keyword : jstring) : jstring :=
  keyword ++ str " blocked " ++ [8212]
  ++ str " mutations are disabled for this connection. Set allowMutations: true in config or per-connection readOnly: false to allow writes.".

(** The [for] loop over the keywords: the first keyword, in the order of
    the list, whose regular expression finds a match. *)
Fixpoint first_keyword (keywords : list jstring) (sanitized : jstring) : option jstring :=
  match keywords with
  | [] => None
  | keyword :: rest =>
      if test_keyword keyword sanitized then Some keyword
      else first_keyword rest sanitized
  end.

Definition validateQuery (query : jstring) (allowMutations : bool) : SafetyResult :=
  if allowMutations then {| allowed := true; reason := None |}
  else
    let trimmed := trim query in
    let stripped := replace_first false re_trailing_semicolon trimmed in
    if includes stripped (str ";")
    then {| allowed := false; reason := Some multiple_statements_reason |}
    else
      let sanitized := stripLiteralsAndComments trimmed in
      match first_keyword MUTATION_KEYWORDS sanitized with
      | Some keyword => {| allowed := false; reason := Some (blocked_reason keyword) |}
      | None => {| allowed := true; reason := None |}
      end.

(** The same loop, keeping the list of the keywords it tested. *)
Fixpoint scan_keywords (keywords : list jstring) (sanitized : jstring)
  : list jstring * option jstring :=
  match keywords with
  | [] => ([], None)
  | keyword :: rest =>
      if test_keyword keyword sanitized then ([keyword], Some keyword)
      else let '(tested, found) := scan_keywords rest sanitized in
           (keyword :: tested, found)
  end.

(** The run of [validateQuery] with the list of the keywords whose
    regular expression it tested on the way to its result. *)
Definition validateQuery_trace (query : jstring) (allowMutations : bool)
  : list jstring * SafetyResult :=
  if allowMutations then ([], {| allowed := true; reason := None |})
  else
    let trimmed := trim query in
    let stripped := replace_first false re_trailing_semicolon trimmed in
    if includes stripped (str ";")
    then ([], {| allowed := false; reason := Some multiple_statements_reason |})
    else
      let sanitized := stripLiteralsAndComments trimmed in
      match scan_keywords MUTATION_KEYWORDS sanitized with
      | (tested, Some keyword) =>
          (tested, {| allowed := false; reason := Some (blocked_reason keyword) |})
      | (tested, None) => (tested, {| allowed := true; reason := None |})
      end.

Definition isReadOnly (connectionReadOnly : option bool) (globalAllowMutations : bool) : bool :=
  match connectionReadOnly with
  | Some b => b
  | None => negb globalAllowMutations
  end.

(** *** Words to state the classifier's properties with *)

(** The last code unit of [pre], or [prev] when [pre] is empty. *)
Definition final_or (prev : option char) (pre : jstring) : option char :=
  match head (rev pre) with
  | Some c => Some c
  | None => prev
  end.

(** [w] is [kw] up to the case of its letters. *)
Definition same_word (w kw : jstring) : Prop :=
  List.map canonicalize w = List.map canonicalize kw.

(** [kw] stands in [s] as a whole word: some occurrence of it, in any
    letter case, has no word character right before it or right after. *)
Definition occurs_as_word (kw s : jstring) : Prop :=
  exists pre w post,
    s = pre ++ w ++ post /\ same_word w kw
    /\ is_word_at (final_or None pre) = false
    /\ is_word_at (head post) = false.

(** The text the keywords are searched in. *)
Definition sanitized_text (query : jstring) : jstring :=
  stripLiteralsAndComments (trim query).

(** A semicolon is left once the trailing terminator is removed. *)
Definition remaining_separator (query : jstring) : bool :=
  includes (replace_first false re_trailing_semicolon (trim query)) (str ";").

(** Text without a quote, a double quote, a slash or a hyphen: nothing
    in it opens a literal or a comment. *)
Definition plain (s : jstring) : Prop :=
  ~ In 39 s /\ ~ In 34 s /\ ~ In 47 s /\ ~ In 45 s.

Definition denied (text : jstring) : SafetyResult :=
  {| allowed := false; reason := Some text |}.

Definition allowed_result : SafetyResult := {| allowed := true; reason := None |}.

(** The denial names [kw]: [kw] is part of the reason. *)
Definition names (r : SafetyResult) (kw : jstring) : Prop :=
  exists text, reason r = Some text /\ includes text kw = true.

End Safety.

(** ** The classifier that looks at the leading token only
       (the source with [MUTATION_PATTERNS]) *)

Module SafetyLeading.

Import Safety.

(** The keywords of [MUTATION_PATTERNS], each standing for
    [/^\s*KEYWORD\b/i]. *)
Definition MUTATION_PATTERNS : list jstring := MUTATION_KEYWORDS.

(** [/^\s*KEYWORD\b/i] *)
Definition re_leading (kw : jstring) : regex :=
  Seq AtStart (Seq (Star true (Cls is_space)) (re_literal kw WordB)).

Definition test_leading (kw s : jstring) : bool := test true (re_leading kw) s.

Section WithRuntime.

(** [String.prototype.toUpperCase], the Unicode case mapping of the
    runtime. *)
Variable toUpperCase : jstring -> jstring.

(** [`${verb} blocked — mutations are disabled ...`] *)
Definition validateQuery (query : jstring) (allowMutations : bool) : SafetyResult :=
  if allowMutations then {| allowed := true; reason := None |}
  else
    let trimmed := trim query in
    if existsb (fun kw => test_leading kw trimmed) MUTATION_PATTERNS
    then
      (* [trimmed.split(/\s+/)[0]]: the text before the first white space *)
      let verb := toUpperCase (take_while (fun c => negb (is_space c)) trimmed) in
      {| allowed := false; reason := Some (blocked_reason verb) |}
    else {| allowed := true; reason := None |}.

End WithRuntime.

End SafetyLeading.

(** Upper-casing of the ASCII letters only: what [toUpperCase] does on a
    text made of ASCII code units. *)
Definition toUpperCase_ascii (s : jstring) : jstring := List.map canonicalize s.

(** A call that returns a value or throws an [Error] with a message. *)
Inductive result (A : Type) : Type :=
| Ok (a : A)
| Throw (message : jstring).
Arguments Ok {A} a.
Arguments Throw {A} message.

(** Sequencing stops at the first throw; [x ← c; k] is stdpp's notation
    for it. *)
#[global] Instance result_bind : MBind result := fun A B k r =>
  match r with
  | Ok a => k a
  | Throw m => Throw m
  end.

#[global] Instance result_ret : MRet result := fun A a => Ok a.

(** ** Result formatting (format.ts) *)

Module Format.

Definition MAX_CELL_WIDTH : nat := 200.

Inductive OutputFormat := Table | Json | Csv | OtherFormat.

Record Column := { name : jstring; width : nat }.

(** A cell value as the drivers hand it over, by the case
    [sanitizeCell] distinguishes. *)
Inductive value :=
| VNull
| VUndefined
| VBlob (bytes : nat)              (* a Buffer or Uint8Array of that length *)
| VObject (json : option jstring)  (* another object, with JSON.stringify(value),
                                      None when stringify throws *)
| VPrim (text : jstring).          (* a string, number, boolean or bigint, with
                                      String(value); for a string, itself *)

(** A result row, a plain object: its own properties with their
    values, in the order they were created (the insertion order). *)
Definition row := list (jstring * value).

(** [Object.keys(row)] *)
Definition Object_keys (r : row) : list jstring := own_keys_order (List.map fst r).

(** The own property [c] of the row, if it has one. *)
Fixpoint own (r : row) (c : jstring) : option value :=
  match r with
  | [] => None
  | (k, v) :: rest => if decide (k = c) then Some v else own rest c
  end.

(** What a row without an own property [c] reads at [c]: a member of
    [Object.prototype], or [undefined]. *)
Definition inherited (c : jstring) : value :=
  if decide (c = str "constructor") then VPrim (native_function_text (str "Object"))
  else if decide (c = str "__proto__") then VObject (Some (str "{}"))
  else if is_prototype_method c then VPrim (native_function_text c)
  else VUndefined.

(** [row[c]] *)
Definition get (r : row) (c : jstring) : value :=
  match own r c with
  | Some v => v
  | None => inherited c
  end.

(** Two rows read the same at every one of [keys]. *)
Definition agree_on (keys : list jstring) (r r' : row) : Prop :=
  forall c, In c keys -> get r c = get r' c.

(** The row after [Object.defineProperty(row, k, ...)] with the value
    [v]: an own property [k] keeps its place and takes the value, a
    new one is created after the others. *)
Fixpoint with_property (r : row) (k : jstring) (v : value) : row :=
  match r with
  | [] => [(k, v)]
  | (k', v') :: rest =>
      if decide (k' = k) then (k', v) :: rest else (k', v') :: with_property rest k v
  end.

Definition sanitizeCell (v : value) : jstring :=
  match v with
  | VNull | VUndefined => str "NULL"
  | VBlob n => str "[BLOB " ++ nat_to_jstring n ++ str " bytes]"
  | VObject (Some json) => json
  | VObject None => str "[Object]"
  | VPrim s =>
      if (MAX_CELL_WIDTH <? length s)%nat
      then slice0 s (Z.of_nat (MAX_CELL_WIDTH - 3)) ++ str "..."
      else s
  end.

(** [Object.entries(row)]: the own properties in the order of
    [Object.keys]. *)
Definition Object_entries (r : row) : list (jstring * value) :=
  List.map (fun k => (k, get r k)) (Object_keys r).

Definition sanitizeRow (r : row) : row :=
  List.map (fun '(k, v) =>
              match v with
              | VBlob n => (k, VPrim (str "[BLOB " ++ nat_to_jstring n ++ str " bytes]"))
              | VNull | VUndefined => (k, VNull)
              | _ => (k, v)
              end) (Object_entries r).

(** 34 is the double quote, 44 the comma, 10 the line feed. *)
Definition csvEscape (val : jstring) : jstring :=
  if includes val [44] || includes val [34] || includes val [10]
  then [34] ++ List.flat_map (fun c => if c =? 34 then [34; 34] else [c]) val ++ [34]
  else val.

Definition csv_header (columns : list jstring) : jstring :=
  join [44] (List.map csvEscape columns).

Definition csv_line (columns : list jstring) (r : row) : jstring :=
  join [44] (List.map (fun c => csvEscape (sanitizeCell (get r c))) columns).

(** [Object.keys(rows[0])] throws on an empty array. *)
Definition first_row_keys (rows : list row) : result (list jstring) :=
  match rows with
  | [] => Throw (str "Cannot convert undefined or null to object")
  | r0 :: _ => Ok (Object_keys r0)
  end.

Definition formatCsv (rows : list row) : result jstring :=
  columns ← first_row_keys rows;
  Ok (join [10] (csv_header columns :: List.map (csv_line columns) rows)).

(** The inner loop of [formatTable]: the cells of one row, each column
    widened to its cell, up to [MAX_CELL_WIDTH]. *)
Fixpoint scan_row (columns : list Column) (r : row) : list Column * list jstring :=
  match columns with
  | [] => ([], [])
  | col :: rest =>
      let cell := sanitizeCell (get r (name col)) in
      let col' := {| name := name col;
                     width := Nat.min (Nat.max (width col) (length cell)) MAX_CELL_WIDTH |} in
      let '(rest', cells) := scan_row rest r in
      (col' :: rest', cell :: cells)
  end.

(** The outer loop: the final columns and the cell grid. *)
Fixpoint scan_rows (columns : list Column) (rows : list row)
  : list Column * list (list jstring) :=
  match rows with
  | [] => (columns, [])
  | r :: rest =>
      let '(columns1, cells) := scan_row columns r in
      let '(columns2, grid) := scan_rows columns1 rest in
      (columns2, cells :: grid)
  end.

Definition initial_columns (keys : list jstring) : list Column :=
  List.map (fun k => {| name := k; width := length k |}) keys.

(** [cells.map((cell, i) => cell.padEnd(columns[i].width))]; a cell
    without a column is padded to [undefined], that is not at all. *)
Fixpoint pad_cells (cells : list jstring) (columns : list Column) : list jstring :=
  match cells with
  | [] => []
  | cell :: cells' =>
      match columns with
      | col :: columns' => padEnd cell (width col) :: pad_cells cells' columns'
      | [] => cell :: pad_cells cells' []
      end
  end.

(** 9472 is the horizontal box line, 9532 the box cross. *)
Definition table_caption (shown : nat) (totalAvailable : option Z) : jstring :=
  match totalAvailable with
  | Some total =>
      if (Z.of_nat shown <? total)%Z
      then [10] ++ str "(showing " ++ nat_to_jstring shown ++ str " of "
                ++ Z_to_jstring total ++ str " rows)"
      else [10] ++ str "(" ++ nat_to_jstring shown ++ str " row"
                ++ (if (shown =? 1)%nat then [] else str "s") ++ str ")"
  | None =>
      [10] ++ str "(" ++ nat_to_jstring shown ++ str " row"
           ++ (if (shown =? 1)%nat then [] else str "s") ++ str ")"
  end.

Definition table_header (columns : list Column) : jstring :=
  join (str " | ") (List.map (fun c => padEnd (name c) (width c)) columns).

Definition table_separator (columns : list Column) : jstring :=
  join [9472; 9532; 9472] (List.map (fun c => repeat_str [9472] (width c)) columns).

Definition table_body (columns : list Column) (cellGrid : list (list jstring))
  : list jstring :=
  List.map (fun cells => join (str " | ") (pad_cells cells columns)) cellGrid.

Definition formatTable (rows : list row) (totalAvailable : option Z) : result jstring :=
  keys ← first_row_keys rows;
  let '(columns, cellGrid) := scan_rows (initial_columns keys) rows in
  let header := table_header columns in
  let sep := table_separator columns in
  let body := table_body columns cellGrid in
  let lines := [header; sep] ++ body ++ [table_caption (length rows) totalAvailable] in
  Ok (join [10] lines).

Section WithJson.

(** [JSON.stringify(rows, null, 2)] of the runtime. *)
Variable JSON_stringify_rows : list row -> jstring.

Definition formatResults (rows : list row) (format : OutputFormat)
           (totalAvailable : option Z) : result jstring :=
  match rows with
  | [] => Ok (str "No results.")
  | _ =>
      match format with
      | Json => Ok (JSON_stringify_rows (List.map sanitizeRow rows))
      | Csv => formatCsv rows
      | Table | OtherFormat => formatTable rows totalAvailable
      end
  end.

End WithJson.

End Format.

(** ** Configuration (config.ts) *)

Module Config.

Local Open Scope Z_scope.

(** The [driver] field; the type of the source lists three names, the
    [default] branch of [createDriver] answers any other. *)
Inductive driver_name :=
| sqlite
| postgres
| mysql
| other_driver (name : jstring).

Record ConnectionConfig := {
  driver : driver_name;
  path : option jstring;
  connectionString : option jstring;
  readOnly : option bool
}.

(** [connections] is a JavaScript object: its entries in the order
    [Object.keys] lists them. *)
Record DbQueryConfig := {
  connections : list (jstring * ConnectionConfig);
  defaultConnection : jstring;
  maxRows : Z;
  queryTimeout : Z;
  allowMutations : bool
}.

Definition DEFAULTS : DbQueryConfig := {|
  connections := [];
  defaultConnection := [];
  maxRows := 1000;
  queryTimeout := 30000;
  allowMutations := false
|}.

(** The plugin configuration as the host passes it: a field is [None]
    when it is absent ([undefined]) or [null], the two values [??]
    replaces. *)
Record RawConfig := {
  raw_connections : option (list (jstring * ConnectionConfig));
  raw_defaultConnection : option jstring;
  raw_maxRows : option Z;
  raw_queryTimeout : option Z;
  raw_allowMutations : option bool
}.

(** [a ?? b] *)
Definition nullish {A} (a : option A) (b : A) : A :=
  match a with
  | Some x => x
  | None => b
  end.

Definition keys {V} (o : list (jstring * V)) : list jstring := List.map fst o.

(** The own entry [k] of the object. *)
Fixpoint own_entry {V} (o : list (jstring * V)) (k : jstring) : option V :=
  match o with
  | [] => None
  | (k', v) :: rest => if decide (k' = k) then Some v else own_entry rest k
  end.

(** What [cfg.connections[k]] is when [connections] has no entry [k]
    and [k] names a member of [Object.prototype]: a function, or
    [Object.prototype] itself, which is not falsy and whose [driver],
    [path], [connectionString] and [readOnly] are all [undefined]. *)
Definition inherited_member : ConnectionConfig :=
  {| driver := other_driver (str "undefined");
     path := None; connectionString := None; readOnly := None |}.

(** [o[k]] *)
Definition lookup_key (o : list (jstring * ConnectionConfig)) (k : jstring)
  : option ConnectionConfig :=
  match own_entry o k with
  | Some v => Some v
  | None => if inherits k then Some inherited_member else None
  end.

Definition resolveConfig (raw : option RawConfig) : DbQueryConfig :=
  match raw with
  | None => DEFAULTS
  | Some raw =>
      {| connections := nullish (raw_connections raw) [];
         defaultConnection :=
           nullish (raw_defaultConnection raw)
                   (nullish (head (keys (nullish (raw_connections raw) []))) []);
         maxRows := Z.min (nullish (raw_maxRows raw) 1000) 10000;
         queryTimeout := nullish (raw_queryTimeout raw) 30000;
         allowMutations := nullish (raw_allowMutations raw) false |}
  end.

End Config.

(** ** The drivers' [query] (drivers/sqlite.ts, mysql.ts, postgres.ts) *)

Module Drivers.

Import Format.

Record QueryResult := {
  rows : list row;
  rowCount : Z;
  totalAvailable : option Z
}.

Section WithRuntime.

(** [String.prototype.toUpperCase] of the runtime. *)
Variable toUpperCase : jstring -> jstring.

(** *** SQLite *)

(** The open database: what [prepare(sql).all()] and
    [prepare(sql).run().changes] give for a statement text. *)
Record SqliteDb := {
  sqlite_all : jstring -> result (list row);
  sqlite_run : jstring -> result (option Z)
}.

Definition sqlite_wraps (sql : jstring) : bool :=
  let upper := toUpperCase (trim sql) in
  startsWith upper (str "SELECT") && negb (includes upper (str "LIMIT")).

Definition sqlite_wrappedSql (sql : jstring) (limit : Z) : jstring :=
  if sqlite_wraps sql
  then replace_first false re_trailing_semicolon sql ++ str " LIMIT " ++ Z_to_jstring (limit + 1)%Z
  else sql.

Definition sqlite_reads (sql : jstring) : bool :=
  let upper := toUpperCase (trim sql) in
  startsWith upper (str "SELECT") || startsWith upper (str "PRAGMA")
  || startsWith upper (str "EXPLAIN") || startsWith upper (str "WITH").

(** [SqliteDriver.query]; the warning written to the console is not
    part of the result. *)
Definition sqlite_query (db : option SqliteDb) (sql : jstring) (limit timeoutMs : Z)
  : result QueryResult :=
  match db with
  | None => Throw (str "SQLite database not connected. Call connect() first.")
  | Some db =>
      if (10000 <? Z.of_nat (length sql))%Z
      then Throw (str "Query too long " ++ [8212]
                  ++ str " SQLite queries are limited to 10,000 characters as a DoS safeguard.")
      else
        let wrappedSql := sqlite_wrappedSql sql limit in
        if sqlite_reads sql then
          fetched ← sqlite_all db wrappedSql;
          let over := (limit <? Z.of_nat (length fetched))%Z in
          let totalAvailable := if over then None else Some (Z.of_nat (length fetched)) in
          let limited := slice0 fetched limit in
          Ok {| rows := limited;
                rowCount := Z.of_nat (length limited);
                totalAvailable :=
                  if over then Some (Z.of_nat (length fetched)) else totalAvailable |}
        else
          changes ← sqlite_run db wrappedSql;
          Ok {| rows := []; rowCount := 0%Z;
                totalAvailable := Some (Config.nullish changes 0%Z) |}
  end.

(** *** MySQL *)

(** The first component of what [pool.query] resolves to: an array of
    rows, or a header object with [affectedRows]. *)
Inductive MysqlReply :=
| MysqlRows (rows : list row)
| MysqlHeader (affectedRows : option Z).

Definition MysqlPool := jstring -> Z -> result MysqlReply.

Definition mysql_wraps (sql : jstring) : bool :=
  let upper := toUpperCase (trim sql) in
  startsWith upper (str "SELECT") || startsWith upper (str "WITH").

Definition mysql_wrappedSql (sql : jstring) (limit : Z) : jstring :=
  if mysql_wraps sql
  then str "SELECT * FROM (" ++ replace_first false re_trailing_semicolon sql
       ++ str ") AS _q LIMIT " ++ Z_to_jstring limit
  else sql.

Definition mysql_query (pool : option MysqlPool) (sql : jstring) (limit timeoutMs : Z)
  : result QueryResult :=
  match pool with
  | None => Throw (str "MySQL not connected. Call connect() first.")
  | Some pool =>
      reply ← pool (mysql_wrappedSql sql limit) timeoutMs;
      match reply with
      | MysqlHeader affectedRows =>
          Ok {| rows := []; rowCount := Config.nullish affectedRows 0%Z;
                totalAvailable := None |}
      | MysqlRows fetched =>
          Ok {| rows := slice0 fetched limit;
                rowCount := Z.of_nat (length fetched);
                totalAvailable := None |}
      end
  end.

(** *** PostgreSQL *)

Record PgReply := { pg_rows : option (list row); pg_rowCount : option Z }.

Definition PgPool := jstring -> Z -> result PgReply.

Definition postgres_wraps (sql : jstring) : bool :=
  let upper := toUpperCase (trim sql) in
  startsWith upper (str "SELECT") && negb (includes upper (str "LIMIT")).

Definition postgres_wrappedSql (sql : jstring) (limit : Z) : jstring :=
  if postgres_wraps sql
  then replace_first false re_trailing_semicolon sql ++ str " LIMIT " ++ Z_to_jstring limit
  else sql.

Definition postgres_query (pool : option PgPool) (sql : jstring) (limit timeoutMs : Z)
  : result QueryResult :=
  match pool with
  | None => Throw (str "PostgreSQL not connected. Call connect() first.")
  | Some pool =>
      reply ← pool (postgres_wrappedSql sql limit) timeoutMs;
      match pg_rows reply with
      | None =>
          Ok {| rows := []; rowCount := Config.nullish (pg_rowCount reply) 0%Z;
                totalAvailable := None |}
      | Some fetched =>
          Ok {| rows := slice0 fetched limit;
                rowCount := Z.of_nat (length fetched);
                totalAvailable := pg_rowCount reply |}
      end
  end.

(** *** The [DatabaseDriver] interface *)

(** A driver object: its class and the handle [connect] stored in it
    ([None] while it is [null]). *)
Inductive Driver :=
| SqliteDriver (db : option SqliteDb)
| MysqlDriver (pool : option MysqlPool)
| PostgresDriver (pool : option PgPool).

Definition query (d : Driver) (sql : jstring) (limit timeoutMs : Z) : result QueryResult :=
  match d with
  | SqliteDriver db => sqlite_query db sql limit timeoutMs
  | MysqlDriver pool => mysql_query pool sql limit timeoutMs
  | PostgresDriver pool => postgres_query pool sql limit timeoutMs
  end.

End WithRuntime.

End Drivers.

(** ** The connection registry and the tool entry point (index.ts) *)

Module Gateway.

Import Config Drivers.

(** A driver object of the heap: [inst_id] is its identity (two objects
    are the same object when their identities agree), [inst_config] the
    configuration its constructor received. *)
Record Instance := {
  inst_id : nat;
  inst_config : ConnectionConfig;
  inst_driver : Driver
}.

(** [connect] has stored a handle in the object. *)
Definition is_connected (d : Instance) : bool :=
  match inst_driver d with
  | SqliteDriver (Some _) | MysqlDriver (Some _) | PostgresDriver (Some _) => true
  | _ => false
  end.

(** What lies outside the program: whether building a driver object
    throws (a missing environment variable in a path, a module that does
    not load), and what the n-th call of [connect] in the life of the
    process finds. *)
Record World := {
  constructor_error : ConnectionConfig -> option jstring;
  open_sqlite : nat -> ConnectionConfig -> result SqliteDb;
  open_mysql : nat -> ConnectionConfig -> result MysqlPool;
  open_postgres : nat -> ConnectionConfig -> result PgPool
}.

(** The mutable state of the module: the [drivers] map, the next object
    identity, and the number of [connect] calls made so far. *)
Record State := {
  drivers : gmap jstring Instance;
  next_id : nat;
  connects : nat
}.

Definition initial_state : State :=
  {| drivers := ∅; next_id := 0; connects := 0 |}.

(** Code that reads and writes the module state and may throw. *)
Definition M (A : Type) : Type := State -> result A * State.

#[global] Instance M_ret : MRet M := fun A a st => (Ok a, st).

#[global] Instance M_bind : MBind M := fun A B k m st =>
  match m st with
  | (Ok a, st') => k a st'
  | (Throw e, st') => (Throw e, st')
  end.

Definition throw {A} (message : jstring) : M A := fun st => (Throw message, st).

Definition lift {A} (r : result A) : M A := fun st => (r, st).

Section WithConfig.

Variable world : World.

(** The module variable [cfg], assigned once by [register]. *)
Variable cfg : DbQueryConfig.

(** [new XDriver(...)]: a fresh object, unless the constructor throws. *)
Definition construct (connCfg : ConnectionConfig) (d : Driver) : M Instance := fun st =>
  match constructor_error world connCfg with
  | Some e => (Throw e, st)
  | None =>
      (Ok {| inst_id := next_id st; inst_config := connCfg; inst_driver := d |},
       {| drivers := drivers st; next_id := S (next_id st); connects := connects st |})
  end.

Definition createDriver (connCfg : ConnectionConfig) : M Instance :=
  match driver connCfg with
  | sqlite => construct connCfg (SqliteDriver None)
  | postgres => construct connCfg (PostgresDriver None)
  | mysql => construct connCfg (MysqlDriver None)
  | other_driver name =>
      throw (str "Unknown driver: " ++ name ++ str ". Supported: sqlite, postgres, mysql")
  end.

(** [driver.connect()]: on success the object holds its handle. *)
Definition connect (d : Instance) : M Instance := fun st =>
  let n := connects st in
  let st' := {| drivers := drivers st; next_id := next_id st; connects := S n |} in
  let connected (h : Driver) :=
    {| inst_id := inst_id d; inst_config := inst_config d; inst_driver := h |} in
  match inst_driver d with
  | SqliteDriver _ =>
      match open_sqlite world n (inst_config d) with
      | Ok db => (Ok (connected (SqliteDriver (Some db))), st')
      | Throw e => (Throw e, st')
      end
  | MysqlDriver _ =>
      match open_mysql world n (inst_config d) with
      | Ok pool => (Ok (connected (MysqlDriver (Some pool))), st')
      | Throw e => (Throw e, st')
      end
  | PostgresDriver _ =>
      match open_postgres world n (inst_config d) with
      | Ok pool => (Ok (connected (PostgresDriver (Some pool))), st')
      | Throw e => (Throw e, st')
      end
  end.

(** [drivers.set(connectionName, driver)] *)
Definition drivers_set (connectionName : jstring) (d : Instance) : M unit := fun st =>
  (Ok tt, {| drivers := <[connectionName := d]> (drivers st);
             next_id := next_id st; connects := connects st |}).

Definition not_found_message (connectionName : jstring) : jstring :=
  let available := keys (connections cfg) in
  match available with
  | [] => str "No database connections configured. Add connections to the db-query plugin config."
  | _ => str "Connection " ++ [34] ++ connectionName ++ [34]
         ++ str " not found. Available: " ++ join (str ", ") available
  end.

(** [getDriver], run from call to return without another caller in
    between. *)
Definition getDriver (connectionName : jstring) : M Instance := fun st =>
  match drivers st !! connectionName with
  | Some existing => (Ok existing, st)
  | None =>
      match lookup_key (connections cfg) connectionName with
      | None => (Throw (not_found_message connectionName), st)
      | Some connCfg =>
          (d ← createDriver connCfg;
           d ← connect d;
           _ ← drivers_set connectionName d;
           mret d) st
      end
  end.

(** [resolveConnectionName]: an empty string is as good as no name. *)
Definition resolveConnectionName (name : option jstring) : result jstring :=
  match name with
  | Some (c :: n) => Ok (c :: n)
  | _ =>
      match defaultConnection cfg with
      | c :: d => Ok (c :: d)
      | [] =>
          match keys (connections cfg) with
          | [k] => Ok k
          | [] => Throw (str "No database connections configured.")
          | ks => Throw (str "Multiple connections available (" ++ join (str ", ") ks
                         ++ str "). Specify which one to use.")
          end
      end
  end.

(** *** One call of [getDriver] among others

    An [async] function runs without interruption up to its next
    [await] and gives way there: other callers run before it resumes. *)
Inductive Task :=
| Called (connectionName : jstring)
| AwaitingCreate (connectionName : jstring) (created : result Instance)
| AwaitingConnect (connectionName : jstring) (connected : result Instance)
| Returned (r : result Instance).

(** The code of [getDriver] between two awaits. *)
Definition step (t : Task) (st : State) : Task * State :=
  match t with
  | Called connectionName =>
      match drivers st !! connectionName with
      | Some existing => (Returned (Ok existing), st)
      | None =>
          match lookup_key (connections cfg) connectionName with
          | None => (Returned (Throw (not_found_message connectionName)), st)
          | Some connCfg =>
              let '(created, st') := createDriver connCfg st in
              (AwaitingCreate connectionName created, st')
          end
      end
  | AwaitingCreate connectionName (Throw e) => (Returned (Throw e), st)
  | AwaitingCreate connectionName (Ok d) =>
      let '(connected, st') := connect d st in
      (AwaitingConnect connectionName connected, st')
  | AwaitingConnect connectionName (Throw e) => (Returned (Throw e), st)
  | AwaitingConnect connectionName (Ok d) =>
      let '(_, st') := drivers_set connectionName d st in
      (Returned (Ok d), st')
  | Returned r => (Returned r, st)
  end.

(** [n] pieces of one caller's code in a row. *)
Fixpoint steps (n : nat) (t : Task) (st : State) : Task * State :=
  match n with
  | O => (t, st)
  | S n' => let '(t', st') := step t st in steps n' t' st'
  end.

(** The callers in flight and the state they share. *)
Record System := { tasks : list Task; shared : State }.

Definition run_task (i : nat) (sys : System) : System :=
  match tasks sys !! i with
  | Some t =>
      let '(t', st') := step t (shared sys) in
      {| tasks := <[i := t']> (tasks sys); shared := st' |}
  | None => sys
  end.

(** A schedule names, one after the other, the caller that runs its
    next piece of code. *)
Definition run_schedule (schedule : list nat) (sys : System) : System :=
  fold_left (fun s i => run_task i s) schedule sys.

(** The identity of the driver object a caller got back. *)
Definition returned_id (t : Task) : option nat :=
  match t with
  | Returned (Ok d) => Some (inst_id d)
  | _ => None
  end.

(** *** The [db_query] tool *)

Variable toUpperCase : jstring -> jstring.
Variable JSON_stringify_rows : list Format.row -> jstring.

Record QueryParams := {
  p_query : jstring;
  p_connection : option jstring;
  p_format : option Format.OutputFormat;
  p_limit : option Z
}.

(** [Math.min((params.limit as number) ?? 100, cfg.maxRows)] *)
Definition effective_limit (requested : option Z) : Z :=
  Z.min (nullish requested 100%Z) (maxRows cfg).

(** What [execute] has in hand before it renders: the denial of the
    safety check, or the driver's answer. *)
Inductive Answer :=
| Denied (reason : option jstring)
| Answered (r : QueryResult).

Definition run_query (params : QueryParams) : M Answer :=
  connName ← lift (resolveConnectionName (p_connection params));
  let connCfg := lookup_key (connections cfg) connName in
  let readOnly := Safety.isReadOnly (connCfg ≫= readOnly) (allowMutations cfg) in
  let limit := effective_limit (p_limit params) in
  let safety := Safety.validateQuery (p_query params) (negb readOnly) in
  if negb (Safety.allowed safety) then mret (Denied (Safety.reason safety))
  else
    d ← getDriver connName;
    r ← lift (query toUpperCase (inst_driver d) (p_query params) limit (queryTimeout cfg));
    mret (Answered r).

Definition error_text (message : jstring) : jstring := str "Error: " ++ message.

(** [execute] of [db_query]: the text of the tool's reply. *)
Definition execute (params : QueryParams) (st : State) : jstring * State :=
  match run_query params st with
  | (Ok (Denied reason), st') => (nullish reason (str "undefined"), st')
  | (Ok (Answered r), st') =>
      match Format.formatResults JSON_stringify_rows (rows r)
              (nullish (p_format params) Format.Table) (totalAvailable r) with
      | Ok text => (text, st')
      | Throw e => (error_text e, st')
      end
  | (Throw e, st') => (error_text e, st')
  end.

End WithConfig.

End Gateway.

(** ** A small database to run the drivers on *)

Module Fixtures.

Import Format Config Drivers Gateway.

Definition is_digit (c : char) : bool := in_range 48 57 c.

Definition digits_value (ds : jstring) : nat :=
  fold_left (fun acc d => (10 * acc + N.to_nat (d - 48))%nat) ds 0%nat.

(** The number [n] of a statement that ends in [ LIMIT n]. *)
Definition limit_suffix (sql : jstring) : option nat :=
  let reversed := rev sql in
  let ds := take_while is_digit reversed in
  match ds with
  | [] => None
  | _ =>
      if startsWith (drop_while is_digit reversed) (rev (str " LIMIT "))
      then Some (digits_value (rev ds)) else None
  end.

(** A database in which every statement selects the rows [source], cut
    by the statement's final LIMIT when it has one. *)
Definition answer (source : list row) (sql : jstring) : list row :=
  match limit_suffix sql with
  | Some n => firstn n source
  | None => source
  end.

Definition sqlite_db (source : list row) : SqliteDb :=
  {| sqlite_all := fun sql => Ok (answer source sql);
     sqlite_run := fun _ => Ok (Some 0%Z) |}.

Definition mysql_pool (source : list row) : MysqlPool :=
  fun sql _ => Ok (MysqlRows (answer source sql)).

Definition postgres_pool (source : list row) : PgPool :=
  fun sql _ =>
    let fetched := answer source sql in
    Ok {| pg_rows := Some fetched; pg_rowCount := Some (Z.of_nat (length fetched)) |}.

Definition id_row (n : nat) : row := [(str "id", VPrim (nat_to_jstring n))].

Definition three_rows : list row := [id_row 1; id_row 2; id_row 3].
Definition four_rows : list row := [id_row 1; id_row 2; id_row 3; id_row 4].

Definition sqlite_connection : ConnectionConfig :=
  {| driver := sqlite; path := Some (str "a.db"); connectionString := None; readOnly := None |}.

(** A world in which every connection opens, onto [source]. *)
Definition world_of (source : list row) : World :=
  {| constructor_error := fun _ => None;
     open_sqlite := fun _ _ => Ok (sqlite_db source);
     open_mysql := fun _ _ => Ok (mysql_pool source);
     open_postgres := fun _ _ => Ok (postgres_pool source) |}.

(** A world in which the first [connect] is refused and the later ones
    open. *)
Definition flaky_world (source : list row) : World :=
  {| constructor_error := fun _ => None;
     open_sqlite := fun n _ =>
       match n with
       | O => Throw (str "Failed to open SQLite database at a.db: unable to open database file")
       | S _ => Ok (sqlite_db source)
       end;
     open_mysql := fun _ _ => Ok (mysql_pool source);
     open_postgres := fun _ _ => Ok (postgres_pool source) |}.

(** Two connections, no [defaultConnection] and no [maxRows] given. *)
Definition two_connections : RawConfig :=
  {| raw_connections := Some [(str "a", sqlite_connection); (str "b", sqlite_connection)];
     raw_defaultConnection := None;
     raw_maxRows := None;
     raw_queryTimeout := None;
     raw_allowMutations := None |}.

Definition one_connection (cap : option Z) : RawConfig :=
  {| raw_connections := Some [(str "a", sqlite_connection)];
     raw_defaultConnection := None;
     raw_maxRows := cap;
     raw_queryTimeout := None;
     raw_allowMutations := None |}.

Definition no_json (rows : list row) : jstring := [].

(** The configuration of one connection with [maxRows] set to 2. *)
Definition capped_config : DbQueryConfig :=
  resolveConfig (Some (one_connection (Some 2%Z))).

(** A request with the limit -1. *)
Definition negative_limit_request : QueryParams :=
  {| p_query := str "SELECT * FROM t LIMIT 50";
     p_connection := None;
     p_format := None;
     p_limit := Some (-1)%Z |}.

Definition answer_rows (a : result Answer) : option (list row) :=
  match a with
  | Ok (Answered r) => Some (rows r)
  | _ => None
  end.

(** Two callers of [getDriver] for the same name, none started yet. *)
Definition two_callers (connectionName : jstring) (st : State) : System :=
  {| tasks := [Called connectionName; Called connectionName]; shared := st |}.

End Fixtures.

(** ** The text outside literals, identifiers and comments, in the
       words of the specification *)

Module SqlText.

(** An SQL text cut into the text outside and the four kinds of region
    the specification names. This reading is independent of
    [stripLiteralsAndComments]: it is what the specification calls the body
    outside string literals, quoted identifiers and comments. *)
Inductive piece :=
| Outside (text : jstring)
| Literal (body : jstring)         (* a single-quoted string literal *)
| Identifier (body : jstring)      (* a double-quoted identifier *)
| BlockComment (body : jstring)    (* slash star, body, star slash *)
| LineComment (body : jstring).    (* two hyphens and the rest of the line *)

Definition render_piece (p : piece) : jstring :=
  match p with
  | Outside text => text
  | Literal body => 39 :: body ++ [39]
  | Identifier body => 34 :: body ++ [34]
  | BlockComment body => 47 :: 42 :: body ++ [42; 47]
  | LineComment body => 45 :: 45 :: body
  end.

(** The text the pieces are a cut of. *)
Definition render (ps : list piece) : jstring := List.concat (List.map render_piece ps).

(** The body outside the regions: the regions deleted. *)
Definition outside_text (ps : list piece) : jstring :=
  List.concat (List.map (fun p => match p with Outside text => text | _ => [] end) ps).

Definition has (c : char) (s : jstring) : bool := existsb (N.eqb c) s.

(** No [x] is followed at once by [y]. *)
Fixpoint free_of (x y : char) (s : jstring) : bool :=
  match s with
  | a :: r =>
      match r with
      | b :: _ => negb ((a =? x) && (b =? y)) && free_of x y r
      | [] => true
      end
  | [] => true
  end.

(** A piece is what it is called: the text outside holds no quote and
    no comment opener, and a region ends at the first mark that closes
    it (a quote, a double quote, star slash, the line feed). *)
Definition cut_piece (p : piece) : bool :=
  match p with
  | Outside text =>
      negb (has 39 text) && negb (has 34 text)
      && free_of 45 45 text && free_of 47 42 text
  | Literal body => negb (has 39 body)
  | Identifier body => negb (has 34 body)
  | BlockComment body => free_of 42 47 body
  | LineComment body => negb (has 10 body)
  end.

(** A line comment runs to the end of the text or to a line feed, which
    begins the text outside that follows it. *)
Fixpoint lines_end (ps : list piece) : bool :=
  match ps with
  | [] => true
  | LineComment _ :: rest =>
      match rest with
      | [] => true
      | Outside (c :: _) :: _ => (c =? 10) && lines_end rest
      | _ => false
      end
  | _ :: rest => lines_end rest
  end.

Definition cut (ps : list piece) : bool := forallb cut_piece ps && lines_end ps.

(** What the four removal passes do not take into account, piece by
    piece: a backslash in a literal or an identifier, a single quote in
    an identifier, a quote of either kind in a comment. *)
Definition clean_piece (p : piece) : bool :=
  match p with
  | Outside _ => true
  | Literal body => negb (has 92 body)
  | Identifier body => negb (has 92 body) && negb (has 39 body)
  | BlockComment body => negb (has 39 body) && negb (has 34 body)
  | LineComment body => negb (has 39 body) && negb (has 34 body)
  end.

(** The text once literals, identifiers and block comments are deleted. *)
Definition bare_piece (p : piece) : jstring :=
  match p with
  | Outside text => text
  | LineComment body => 45 :: 45 :: body
  | _ => []
  end.

Definition bare (ps : list piece) : jstring := List.concat (List.map bare_piece ps).

(** The text outside with one hyphen left where a line comment stood. *)
Definition marked_piece (p : piece) : jstring :=
  match p with
  | Outside text => text
  | LineComment _ => [45]
  | _ => []
  end.

Definition marked (ps : list piece) : jstring := List.concat (List.map marked_piece ps).

(** Deleting a region forms no comment opener: no slash star is left
    once literals, identifiers and block comments are gone, and no two
    hyphens meet outside the regions or in front of a line comment. *)
Definition clean (ps : list piece) : bool :=
  forallb clean_piece ps && free_of 47 42 (bare ps) && free_of 45 45 (marked ps).




(** A semicolon stands nowhere but at the very end. *)
Definition single_statement (s : jstring) : Prop :=
  forall pre post, s = pre ++ 59 :: post -> post = [].

End SqlText.

(** ** The leading-token classifier, read directly *)

Module LeadingToken.

Import Safety.

(** The test of the expression of one pattern computed without the
    matcher: the keyword right after the leading white space, with a
    word boundary after it. *)
Definition leads_with (kw s : jstring) : bool :=
  match match_keyword kw None (drop_while is_space s) with
  | Some (lastc, rest) => word_boundary lastc (head rest)
  | None => false
  end.

(** [s] begins with [kw], in any letter case, as a whole word. *)
Definition begins_with_word (kw s : jstring) : Prop :=
  exists w rest, s = w ++ rest /\ same_word w kw /\ is_word_at (head rest) = false.

End LeadingToken.

(** ** The shape of a table *)

Module TableShape.

Import Format.

(** The text [formatTable] puts in a row's cell under a key. *)
Definition cell (r : row) (k : jstring) : jstring := sanitizeCell (get r k).

(** The width of a column once the loop has seen cells of these
    lengths, one after the other. *)
Definition width_after (w0 : nat) (cells : list nat) : nat :=
  fold_left (fun w c => Nat.min (Nat.max w c) MAX_CELL_WIDTH) cells w0.

(** The columns [formatTable] ends up with, and its cell grid. *)
Definition final_columns (first : row) (later : list row) : list Column :=
  fst (scan_rows (initial_columns (Object_keys first)) (first :: later)).

Definition cell_grid (first : row) (later : list row) : list (list jstring) :=
  snd (scan_rows (initial_columns (Object_keys first)) (first :: later)).

(** The lines of the table above its caption. *)
Definition table_lines (first : row) (later : list row) : list jstring :=
  let columns := final_columns first later in
  table_header columns :: table_separator columns
  :: table_body columns (cell_grid first later).

(** The widths of the columns and the three code units between two
    neighbours. *)
Definition line_width (columns : list Column) : nat :=
  list_sum (List.map width columns) + 3 * (length columns - 1).

End TableShape.

(** ** Environment references and paths (config.ts) *)

Module Environment.

(** [process.env]: the value of a variable, [None] when it is not set. *)
Definition Env := jstring -> option jstring.

(** A class of a case-insensitive expression: a code unit is in it when
    its canonical form is. *)
Definition name_start (c : char) : bool :=
  let u := canonicalize c in in_range 65 90 u || (u =? 95).

Definition name_char (c : char) : bool :=
  let u := canonicalize c in in_range 65 90 u || in_range 48 57 u || (u =? 95).

(** The expression of [expandEnv]: a dollar sign, then a letter or an
    underscore, then letters, digits and underscores, as many as there
    are; flags g and i. *)
Definition re_env_reference : regex :=
  Seq (Chr 36) (Seq (Cls name_start) (Star true (Cls name_char))).

(** [s.replace(re, f)] with the global flag and a replacer function that
    may throw: the matches are taken left to right, each replaced by what
    [f] returns for the matched text; the first throw ends the call. *)
Fixpoint replace_all_with_from (ignoreCase : bool) (r : regex)
         (f : jstring -> result jstring) (skip : nat)
         (prev : option char) (s : jstring) : result jstring :=
  match s with
  | [] => Ok []
  | c :: rest =>
      match skip with
      | S k => replace_all_with_from ignoreCase r f k (Some c) rest
      | O =>
          match exec ignoreCase r prev s with
          | Some (S n) =>
              piece ← f (firstn (S n) s);
              tail ← replace_all_with_from ignoreCase r f n (Some c) rest;
              Ok (piece ++ tail)
          | _ =>
              tail ← replace_all_with_from ignoreCase r f 0 (Some c) rest;
              Ok (c :: tail)
          end
      end
  end.

Definition replace_all_with (ignoreCase : bool) (r : regex)
           (f : jstring -> result jstring) (s : jstring) : result jstring :=
  replace_all_with_from ignoreCase r f 0 None s.

Definition not_set_message (name : jstring) : jstring :=
  str "Environment variable $" ++ name ++ str " is not set. Set it before connecting.".

(** The replacer of [expandEnv]: [name] is the first group, the match
    without its dollar sign. *)
Definition expand_reference (env : Env) (matched : jstring) : result jstring :=
  let name := skipn 1 matched in
  match env name with
  | None => Throw (not_set_message name)
  | Some val => Ok val
  end.

Definition expandEnv (env : Env) (value : jstring) : result jstring :=
  replace_all_with true re_env_reference (expand_reference env) value.

(** The replacement text of [s.replace(pattern, template)] for a string
    pattern (no groups): [$$] is a dollar sign, [$&] the matched text,
    [$`] what stands before it and [$'] what follows it; any other
    dollar sign stands for itself. *)
Fixpoint substitution (matched before after template : jstring) : jstring :=
  match template with
  | [] => []
  | c :: rest =>
      if c =? 36 then
        match rest with
        | d :: rest' =>
            if d =? 36 then 36 :: substitution matched before after rest'
            else if d =? 38 then matched ++ substitution matched before after rest'
            else if d =? 96 then before ++ substitution matched before after rest'
            else if d =? 39 then after ++ substitution matched before after rest'
            else 36 :: substitution matched before after rest
        | [] => [36]
        end
      else c :: substitution matched before after rest
  end.

(** [s.replace(pattern, template)] for a one-character string pattern:
    its first occurrence is replaced. *)
Fixpoint replace_char_from (before s : jstring) (pattern : char) (template : jstring)
  : jstring :=
  match s with
  | [] => []
  | c :: rest =>
      if c =? pattern then substitution [pattern] (rev before) rest template ++ rest
      else c :: replace_char_from (c :: before) rest pattern template
  end.

Definition replace_char (s : jstring) (pattern : char) (template : jstring) : jstring :=
  replace_char_from [] s pattern template.

Definition resolvePath (env : Env) (p : jstring) : result jstring :=
  resolved ← expandEnv env p;
  if startsWith resolved (str "~/")
  then Ok (replace_char resolved 126 (Config.nullish (env (str "HOME")) (str "/tmp")))
  else Ok resolved.

(** The match of the expression at the head of [s], computed directly. *)
Definition match_env_reference : matcher := fun s =>
  match s with
  | a :: b :: rest =>
      if (a =? 36) && name_start b
      then Some (S (S (length (take_while name_char rest))))
      else None
  | _ => None
  end.



(** An environment for the examples: [DB] and [HOME] are set. *)
Definition sample_env : Env := fun name =>
  if decide (name = str "DB") then Some (str "pg://h/$X")
  else if decide (name = str "HOME") then Some (str "/home/u")
  else None.

End Environment.

(** ** The slash command (index.ts) *)

Module Commands.

Import Format Config Drivers Gateway.

Section WithConfig.

Variable world : World.

Variable cfg : DbQueryConfig.

Variable toUpperCase : jstring -> jstring.

Variable JSON_stringify_rows : list row -> jstring.

Definition usage_text : jstring := str "Usage: /db SELECT * FROM users LIMIT 10".

(** The body of the handler's [try]: the denial of the safety check, or
    the text of the table. *)
Definition db_command_body (args : jstring) : M jstring :=
  connName ← lift (resolveConnectionName cfg None);
  let connCfg := lookup_key (connections cfg) connName in
  let readOnly := Safety.isReadOnly (connCfg ≫= readOnly) (allowMutations cfg) in
  let safety := Safety.validateQuery args (negb readOnly) in
  if negb (Safety.allowed safety) then mret (nullish (Safety.reason safety) (str "undefined"))
  else
    d ← getDriver world cfg connName;
    r ← lift (query toUpperCase (inst_driver d) args (Z.min 100 (maxRows cfg)) (queryTimeout cfg));
    lift (formatResults JSON_stringify_rows (rows r) Table (totalAvailable r)).

(** The handler of the command [db]: the text of its reply. *)
Definition db_command (args : option jstring) (st : State) : jstring * State :=
  match args with
  | None => (usage_text, st)
  | Some args =>
      match trim args with
      | [] => (usage_text, st)
      | _ =>
          match db_command_body args st with
          | (Ok text, st') => (text, st')
          | (Throw e, st') => (error_text e, st')
          end
      end
  end.

End WithConfig.

End Commands.

(** ** What the registry holds *)

Module RegistryShape.

Import Gateway.

(** Every driver the registry holds is connected. *)
Definition cached_connected (st : State) : Prop :=
  map_Forall (fun _ d => is_connected d = true) (drivers st).

(** A caller between [connect] and [drivers.set] holds a connected
    driver. *)
Definition holds_connected (t : Task) : Prop :=
  match t with
  | AwaitingConnect _ (Ok d) => is_connected d = true
  | _ => True
  end.

End RegistryShape.

(* ===================================================================== *)
(** * Part II: properties *)
(* ===================================================================== *)

(** ** Code units and strings *)

Ltac char_cases :=
  unfold is_word, is_space, is_line_terminator, canonicalize, in_range in *;
  repeat match goal with
         | |- context [N.leb ?a ?b] => destruct (N.leb_spec a b)
         | |- context [N.eqb ?a ?b] => destruct (N.eqb_spec a b)
         | H : context [N.leb ?a ?b] |- _ => destruct (N.leb_spec a b)
         | H : context [N.eqb ?a ?b] |- _ => destruct (N.eqb_spec a b)
         end;
  simpl in *; try congruence; try lia.

Lemma canonicalize_word (c p : char) :
  canonicalize c = canonicalize p -> is_word c = is_word p.
Proof. intros H. char_cases. Qed.

Lemma startsWith_spec (s prefix : jstring) :
  startsWith s prefix = true <-> exists rest, s = prefix ++ rest.
Proof.
  revert s; induction prefix as [|p prefix IH]; intros s; simpl.
  - split; [intros _; exists s; reflexivity | reflexivity].
  - destruct s as [|c s]; simpl.
    + split; [discriminate | intros [rest H]; discriminate].
    + rewrite andb_true_iff, N.eqb_eq, IH. split.
      * intros [-> [rest ->]]. exists rest. reflexivity.
      * intros [rest H]. injection H as -> ->. split; [reflexivity | exists rest; reflexivity].
  Qed.

Lemma includes_spec (s needle : jstring) :
  includes s needle = true <-> exists pre post, s = pre ++ needle ++ post.
Proof.
  induction s as [|c s IH]; simpl.
  - rewrite orb_false_r, startsWith_spec. split.
    + intros [rest H]. exists [], rest. exact H.
    + intros [pre [post H]]. destruct pre; simpl in H; [exists post; exact H | discriminate].
  - rewrite orb_true_iff, startsWith_spec, IH. split.
    + intros [[rest H] | [pre [post H]]].
      * exists [], rest. exact H.
      * exists (c :: pre), post. simpl. rewrite H. reflexivity.
    + intros [pre [post H]]. destruct pre as [|c' pre]; simpl in H.
      * left. exists post. exact H.
      * right. injection H as -> ->. exists pre, post. reflexivity.
Qed.

(** [s.includes(";")] says that a semicolon is among the code units. *)
Lemma includes_semicolon (s : jstring) :
  includes s (str ";") = true <-> In 59 s.
Proof.
  rewrite includes_spec. split.
  - intros [pre [post ->]]. apply in_or_app. right. left. reflexivity.
  - intros H. apply in_split in H as [pre [post ->]]. exists pre, post. reflexivity.
Qed.

(** ** The expressions of the sources, match by match *)

Section Expressions.

Import Safety.

(** Replacing with a matcher that agrees with the expression at every
    position is replacing with the expression. *)
Lemma replace_all_from_direct (ignoreCase : bool) (r : regex) (m : matcher) :
  (forall prev s, exec ignoreCase r prev s = m s) ->
  forall skip prev s, replace_all_from ignoreCase r skip prev s = remove_all_from m skip s.
Proof.
  intros H skip prev s. revert skip prev.
  induction s as [|c s IH]; intros skip prev; simpl; [reflexivity|].
  destruct skip as [|k]; [|apply IH].
  rewrite H. destruct (m (c :: s)) as [[|n]|]; rewrite ?IH; reflexivity.
Qed.

Lemma replace_all_direct (ignoreCase : bool) (r : regex) (m : matcher) (s : jstring) :
  (forall prev s, exec ignoreCase r prev s = m s) ->
  replace_all ignoreCase r s = remove_all m s.
Proof. intros H. apply replace_all_from_direct. exact H. Qed.

Lemma replace_first_direct (ignoreCase : bool) (r : regex) (m : matcher) (s : jstring) :
  (forall prev s, exec ignoreCase r prev s = m s) ->
  replace_first ignoreCase r s = remove_first m s.
Proof.
  intros H. unfold replace_first. generalize (@None char) as prev.
  induction s as [|c s IH]; intros prev; simpl; rewrite H.
  - reflexivity.
  - destruct (m (c :: s)); [reflexivity|]. rewrite IH. reflexivity.
Qed.

(** *** [/;\s*$/] *)

Lemma star_space_to_end (fuel : nat) (prev : option char) (s : jstring) :
  (length s <= fuel)%nat ->
  star_loop true (run false (Cls is_space)) fuel prev s
            (fun prev' s' => run false AtEnd prev' s' (fun _ rest => Some rest))
  = if forallb is_space s then Some [] else None.
Proof.
  revert prev s; induction fuel as [|fuel IH]; intros prev s Hlen.
  - destruct s; [reflexivity | simpl in Hlen; lia].
  - destruct s as [|d s]; [reflexivity|].
    cbn [star_loop run forallb]. destruct (is_space d); [|reflexivity].
    cbn [length]. destruct (Nat.ltb_spec (length s) (S (length s))); [|lia].
    rewrite IH by (simpl in Hlen; lia).
    simpl. destruct (forallb is_space s); reflexivity.
Qed.

Lemma exec_trailing_semicolon (prev : option char) (s : jstring) :
  exec false re_trailing_semicolon prev s = match_trailing_semicolon s.
Proof.
  unfold exec, re_trailing_semicolon, match_trailing_semicolon.
  destruct s as [|c s]; [reflexivity|].
  cbn [run]. destruct (c =? 59); [|reflexivity]. cbn [andb].
  rewrite star_space_to_end by lia.
  destruct (forallb is_space s); [|reflexivity].
  cbn [length]. rewrite Nat.sub_0_r. reflexivity.
Qed.

(** *** The quoted regions *)

Lemma quoted_tail_le (q : char) (s : jstring) (n : nat) :
  quoted_tail q s = Some n -> (n <= length s)%nat.
Proof.
  assert (H : forall fuel s n, (length s <= fuel)%nat ->
                               quoted_tail q s = Some n -> (n <= length s)%nat).
  { clear s n. induction fuel as [|fuel IH]; intros s n Hlen.
    - destruct s; [discriminate | simpl in Hlen; lia].
    - destruct s as [|c s]; simpl; [discriminate|].
      destruct (c =? q); [intros H; injection H as <-; lia|].
      destruct (c =? 92).
      + destruct s as [|d s]; [discriminate|].
        destruct (is_line_terminator d); [discriminate|].
        destruct (quoted_tail q s) as [k|] eqn:E; [|discriminate].
        intros H. injection H as <-.
        apply IH in E; [simpl; lia | simpl in Hlen; lia].
      + destruct (quoted_tail q s) as [k|] eqn:E; [|discriminate].
        intros H. injection H as <-.
        apply IH in E; [simpl; lia | simpl in Hlen; lia]. }
  apply (H (length s)). lia.
Qed.

Lemma star_quoted (q : char) (fuel : nat) (prev : option char) (s : jstring) :
  q <> 92 -> (length s <= fuel)%nat ->
  star_loop true
    (run false (Alt (Cls (fun c => negb ((c =? q) || (c =? 92))))
                    (Seq (Chr 92) (Cls (fun c => negb (is_line_terminator c))))))
    fuel prev s
    (fun prev' s' => run false (Chr q) prev' s' (fun _ rest => Some rest))
  = option_map (fun n => skipn n s) (quoted_tail q s).
Proof.
  intros Hq. revert prev s; induction fuel as [|fuel IH]; intros prev s Hlen.
  - destruct s; [reflexivity | simpl in Hlen; lia].
  - destruct s as [|c s]; [reflexivity|].
    cbn [star_loop run quoted_tail].
    destruct (N.eqb_spec c q) as [->|Hcq].
    + (* the closing quote *)
      destruct (N.eqb_spec q 92) as [|_]; [contradiction|]. reflexivity.
    + destruct (N.eqb_spec c 92) as [->|Hc92]; cbn [orb negb].
      * (* a backslash and the code unit it takes along *)
        destruct s as [|d s]; [reflexivity|].
        destruct (is_line_terminator d); [reflexivity|]. cbn [negb length].
        destruct (Nat.ltb_spec (length s) (S (S (length s)))); [|lia].
        rewrite IH by (simpl in Hlen; lia).
        destruct (quoted_tail q s); reflexivity.
      * cbn [length].
        destruct (Nat.ltb_spec (length s) (S (length s))); [|lia].
        rewrite IH by (simpl in Hlen; lia).
        destruct (quoted_tail q s); reflexivity.
Qed.

Lemma exec_quoted (q : char) (prev : option char) (s : jstring) :
  q <> 92 -> exec false (re_quoted q) prev s = match_quoted q s.
Proof.
  intros Hq. unfold exec, re_quoted, match_quoted.
  destruct s as [|c s]; [reflexivity|].
  cbn [run]. destruct (c =? q); [|reflexivity].
  change (run false (Star true ?b) ?p ?t ?k) with (star_loop true (run false b) (length t) p t k).
  rewrite (star_quoted q) by (try assumption; lia).
  destruct (quoted_tail q s) as [n|] eqn:E; [|reflexivity].
  apply quoted_tail_le in E. cbn [option_map length]. rewrite length_skipn.
  f_equal. lia.
Qed.

(** *** The comments *)

Lemma comment_tail_le (s : jstring) (n : nat) :
  comment_tail s = Some n -> (n <= length s)%nat.
Proof.
  revert n; induction s as [|a s IH]; intros n; [discriminate|].
  destruct s as [|b s]; [discriminate|].
  change (comment_tail (a :: b :: s))
    with (if (a =? 42) && (b =? 47) then Some 2%nat else option_map S (comment_tail (b :: s))).
  destruct ((a =? 42) && (b =? 47)); [intros H; injection H as <-; simpl; lia|].
  destruct (comment_tail (b :: s)) as [k|]; [|discriminate].
  intros H. injection H as <-. specialize (IH k eq_refl). simpl in *. lia.
Qed.

Lemma star_to_comment_close (fuel : nat) (prev : option char) (s : jstring) :
  (length s <= fuel)%nat ->
  star_loop false (run false (Cls (fun _ => true))) fuel prev s
            (fun prev' s' => run false (Seq (Chr 42) (Chr 47)) prev' s' (fun _ rest => Some rest))
  = option_map (fun n => skipn n s) (comment_tail s).
Proof.
  revert prev s; induction fuel as [|fuel IH]; intros prev s Hlen.
  - destruct s; [reflexivity | simpl in Hlen; lia].
  - destruct s as [|a s]; [reflexivity|].
    assert (Hnext :
      (if (length s <? length (a :: s))%nat
       then star_loop false (run false (Cls (fun _ => true))) fuel (Some a) s
              (fun prev' s' =>
                 run false (Seq (Chr 42) (Chr 47)) prev' s' (fun _ rest => Some rest))
       else None)
      = option_map (fun n => skipn n s) (comment_tail s)).
    { destruct (Nat.ltb_spec (length s) (length (a :: s))); [|simpl in *; lia].
      apply IH. simpl in *. lia. }
    cbn [star_loop run] in Hnext |- *. rewrite Hnext.
    destruct s as [|b s].
    + destruct (a =? 42); reflexivity.
    + change (comment_tail (a :: b :: s))
        with (if (a =? 42) && (b =? 47) then Some 2%nat
              else option_map S (comment_tail (b :: s))).
      destruct (a =? 42); cbn [andb].
      * destruct (b =? 47); [reflexivity|].
        destruct (comment_tail (b :: s)); reflexivity.
      * destruct (comment_tail (b :: s)); reflexivity.
Qed.

Lemma exec_block_comment (prev : option char) (s : jstring) :
  exec false re_block_comment prev s = match_block_comment s.
Proof.
  unfold exec, re_block_comment, match_block_comment.
  destruct s as [|a s]; [reflexivity|]. cbn [run].
  destruct s as [|b s]; [destruct (a =? 47); reflexivity|].
  destruct (a =? 47); [|reflexivity]. destruct (b =? 42); [|reflexivity]. cbn [andb].
  change (run false (Star false ?body) ?p ?t ?k)
    with (star_loop false (run false body) (length t) p t k).
  rewrite star_to_comment_close by lia.
  destruct (comment_tail s) as [n|] eqn:E; [|reflexivity].
  apply comment_tail_le in E. cbn [option_map length]. rewrite length_skipn.
  f_equal. lia.
Qed.

Lemma take_drop_while_length (p : char -> bool) (s : jstring) :
  (length (take_while p s) + length (drop_while p s))%nat = length s.
Proof.
  induction s as [|c s IH]; simpl; [reflexivity|].
  destruct (p c); simpl; lia.
Qed.

Lemma star_class_to_rest (p : char -> bool) (fuel : nat) (prev : option char) (s : jstring) :
  (length s <= fuel)%nat ->
  star_loop true (run false (Cls p)) fuel prev s (fun _ rest => Some rest)
  = Some (drop_while p s).
Proof.
  revert prev s; induction fuel as [|fuel IH]; intros prev s Hlen.
  - destruct s; [reflexivity | simpl in Hlen; lia].
  - destruct s as [|c s]; [reflexivity|].
    cbn [star_loop run drop_while]. destruct (p c); [|reflexivity].
    cbn [length]. destruct (Nat.ltb_spec (length s) (S (length s))); [|lia].
    rewrite IH by (simpl in Hlen; lia). reflexivity.
Qed.

Lemma exec_line_comment (prev : option char) (s : jstring) :
  exec false re_line_comment prev s = match_line_comment s.
Proof.
  unfold exec, re_line_comment, match_line_comment.
  destruct s as [|a s]; [reflexivity|]. cbn [run].
  destruct s as [|b s]; [destruct (a =? 45); reflexivity|].
  destruct (a =? 45); [|reflexivity]. destruct (b =? 45); [|reflexivity]. cbn [andb].
  match goal with
  | |- context [star_loop true ?body ?f ?p ?t ?k] =>
      change (star_loop true body f p t k)
        with (star_loop true (run false (Cls (fun c => negb (c =? 10)))) f p t k)
  end.
  rewrite star_class_to_rest by lia.
  pose proof (take_drop_while_length (fun c => negb (c =? 10)) s) as Hl.
  cbn [length]. f_equal. lia.
Qed.

(** The four passes of the source are the four direct passes. *)
Lemma stripLiteralsAndComments_passes (sql : jstring) :
  stripLiteralsAndComments sql = strip_passes sql.
Proof.
  unfold stripLiteralsAndComments, strip_passes.
  rewrite (replace_all_direct false (re_quoted 39) (match_quoted 39))
    by (intros; apply exec_quoted; discriminate).
  rewrite (replace_all_direct false (re_quoted 34) (match_quoted 34))
    by (intros; apply exec_quoted; discriminate).
  rewrite (replace_all_direct false re_block_comment match_block_comment)
    by (intros; apply exec_block_comment).
  apply replace_all_direct. intros; apply exec_line_comment.
Qed.

Lemma replace_trailing_direct (s : jstring) :
  replace_first false re_trailing_semicolon s = remove_first match_trailing_semicolon s.
Proof. apply replace_first_direct. intros; apply exec_trailing_semicolon. Qed.

(** *** The keywords *)

Lemma run_literal (kw : jstring) (after : regex) (prev : option char) (s : jstring) (k : Kont) :
  run true (re_literal kw after) prev s k
  = match match_keyword kw prev s with
    | Some (lastc, rest) => run true after lastc rest k
    | None => None
    end.
Proof.
  revert prev s; induction kw as [|p kw IH]; intros prev s; [reflexivity|].
  cbn [re_literal run match_keyword]. destruct s as [|c s]; [reflexivity|].
  destruct (canonicalize c =? canonicalize p); [apply IH | reflexivity].
Qed.

Lemma exec_keyword (kw : jstring) (prev : option char) (s : jstring) :
  match exec true (re_keyword kw) prev s with
  | Some _ => true
  | None => false
  end = keyword_at kw prev s.
Proof.
  unfold exec, re_keyword, keyword_at. cbn [run].
  destruct (word_boundary prev (head s)); [|reflexivity]. cbn [andb].
  rewrite run_literal. destruct (match_keyword kw prev s) as [[lastc rest]|]; [|reflexivity].
  cbn [run]. destruct (word_boundary lastc (head rest)); reflexivity.
Qed.

Lemma test_keyword_search (kw s : jstring) :
  test_keyword kw s = keyword_search kw None s.
Proof.
  unfold test_keyword, test. generalize (@None char) as prev.
  induction s as [|c s IH]; intros prev; cbn [test_from keyword_search];
    rewrite <- exec_keyword;
    destruct (exec true (re_keyword kw) prev _); rewrite ?IH; reflexivity.
Qed.

End Expressions.

(** ** The keyword test *)

Section KeywordTest.

Import Safety.

Lemma final_or_cons (prev : option char) (c : char) (pre : jstring) :
  final_or prev (c :: pre) = final_or (Some c) pre.
Proof.
  unfold final_or. simpl. destruct (rev pre) as [|d r] eqn:E; simpl.
  - reflexivity.
  - reflexivity.
Qed.

Lemma final_or_app_word (prev : option char) (w : jstring) :
  w <> [] -> Forall (fun c => is_word c = true) w ->
  is_word_at (final_or prev w) = true.
Proof.
  intros Hne Hall. unfold final_or.
  destruct (rev w) as [|d r] eqn:E.
  - apply (f_equal (@rev char)) in E. rewrite rev_involutive in E. contradiction.
  - simpl. rewrite Forall_forall in Hall. apply Hall.
    apply in_rev. rewrite E. left. reflexivity.
Qed.

Lemma same_word_cons_inv (c : char) (w : jstring) (p : char) (kw : jstring) :
  same_word (c :: w) (p :: kw) <-> canonicalize c = canonicalize p /\ same_word w kw.
Proof.
  unfold same_word. simpl. split.
  - intros H. injection H as H1 H2. auto.
  - intros [-> ->]. reflexivity.
Qed.

Lemma same_word_is_word (w kw : jstring) :
  same_word w kw -> Forall (fun c => is_word c = true) kw ->
  Forall (fun c => is_word c = true) w.
Proof.
  revert kw; induction w as [|c w IH]; intros [|p kw] H Hall; try discriminate.
  - constructor.
  - apply same_word_cons_inv in H as [Hc Hw]. inversion Hall; subst.
    constructor; [rewrite (canonicalize_word c p Hc); assumption | eauto].
Qed.

(** What [match_keyword] finds: the word it consumed. *)
Lemma match_keyword_spec (kw : jstring) (prev : option char) (s : jstring)
      (lastc : option char) (rest : jstring) :
  match_keyword kw prev s = Some (lastc, rest) <->
  exists w, s = w ++ rest /\ same_word w kw /\ lastc = final_or prev w.
Proof.
  revert prev s; induction kw as [|p kw IH]; intros prev s; simpl.
  - split.
    + intros H. injection H as <- <-. exists []. repeat split.
    + intros [w [-> [Hw ->]]]. destruct w; [reflexivity | discriminate].
  - destruct s as [|c s].
    + split; [discriminate|]. intros [w [Hs [Hw _]]].
      destruct w; [discriminate Hw | discriminate Hs].
    + destruct (N.eqb_spec (canonicalize c) (canonicalize p)) as [Hc|Hc].
      * rewrite IH. split.
        -- intros [w [-> [Hw ->]]]. exists (c :: w). repeat split.
           ++ apply same_word_cons_inv. auto.
           ++ symmetry. apply final_or_cons.
        -- intros [w [Hs [Hw ->]]]. destruct w as [|c' w]; [discriminate Hw|].
           injection Hs as <- ->. apply same_word_cons_inv in Hw as [_ Hw].
           exists w. repeat split; [assumption | apply final_or_cons].
      * split; [discriminate|]. intros [w [Hs [Hw _]]].
        destruct w as [|c' w]; [discriminate Hw|].
        injection Hs as <- ->. apply same_word_cons_inv in Hw as [Hc' _]. contradiction.
Qed.

Variable kw : jstring.
Hypothesis kw_nonempty : kw <> [].
Hypothesis kw_word : Forall (fun c => is_word c = true) kw.

Lemma same_word_nonempty (w : jstring) : same_word w kw -> w <> [].
Proof. intros H ->. destruct kw; [contradiction | discriminate]. Qed.

Lemma keyword_at_spec (prev : option char) (s : jstring) :
  keyword_at kw prev s = true <->
  exists w post, s = w ++ post /\ same_word w kw
                 /\ is_word_at prev = false /\ is_word_at (head post) = false.
Proof.
  unfold keyword_at. split.
  - rewrite andb_true_iff. intros [Hb H].
    destruct (match_keyword kw prev s) as [[lastc rest]|] eqn:E; [|discriminate].
    apply match_keyword_spec in E as [w [-> [Hw ->]]].
    pose proof (same_word_nonempty w Hw) as Hne.
    pose proof (same_word_is_word w kw Hw kw_word) as Hall.
    exists w, rest. repeat split; try assumption.
    + destruct w as [|c w]; [contradiction|]. simpl in Hb.
      inversion Hall; subst. unfold word_boundary in Hb. simpl in Hb.
      destruct (is_word_at prev); [|reflexivity]. rewrite H2 in Hb. discriminate.
    + unfold word_boundary in H. rewrite (final_or_app_word prev w Hne Hall) in H.
      destruct (is_word_at (head rest)); [discriminate | reflexivity].
  - intros [w [post [-> [Hw [Hp Hn]]]]].
    pose proof (same_word_nonempty w Hw) as Hne.
    pose proof (same_word_is_word w kw Hw kw_word) as Hall.
    assert (E : match_keyword kw prev (w ++ post) = Some (final_or prev w, post)).
    { apply match_keyword_spec. exists w. auto. }
    rewrite E. unfold word_boundary.
    rewrite (final_or_app_word prev w Hne Hall), Hn, Hp.
    destruct w as [|c w]; [contradiction|]. inversion Hall; subst. simpl.
    rewrite H1. reflexivity.
Qed.

Lemma keyword_search_spec (prev : option char) (s : jstring) :
  keyword_search kw prev s = true <->
  exists pre w post, s = pre ++ w ++ post /\ same_word w kw
                     /\ is_word_at (final_or prev pre) = false
                     /\ is_word_at (head post) = false.
Proof.
  revert prev; induction s as [|c s IH]; intros prev; simpl.
  - rewrite orb_false_r, keyword_at_spec. split.
    + intros [w [post [H [Hw [Hp Hn]]]]]. exists [], w, post. auto.
    + intros [pre [w [post [H [Hw [Hp Hn]]]]]].
      destruct pre; [|discriminate]. exists w, post. auto.
  - rewrite orb_true_iff, keyword_at_spec, IH. split.
    + intros [[w [post [H [Hw [Hp Hn]]]]] | [pre [w [post [H [Hw [Hp Hn]]]]]]].
      * exists [], w, post. auto.
      * exists (c :: pre), w, post. rewrite final_or_cons. simpl. rewrite H. auto.
    + intros [pre [w [post [H [Hw [Hp Hn]]]]]]. destruct pre as [|c' pre].
      * left. exists w, post. auto.
      * right. simpl in H. injection H as <- ->. rewrite final_or_cons in Hp.
        exists pre, w, post. auto.
Qed.

(** The regular expression [\bKEYWORD\b] with the [i] flag finds the
    keyword exactly when it stands in the text as a whole word. *)
Lemma test_keyword_spec (s : jstring) :
  test_keyword kw s = true <-> occurs_as_word kw s.
Proof. rewrite test_keyword_search. apply keyword_search_spec. Qed.

End KeywordTest.

(** ** The classifier (safety.ts) *)

Section Classifier.

Import Safety.

Lemma mutation_keyword_shape (kw : jstring) :
  In kw MUTATION_KEYWORDS -> kw <> [] /\ Forall (fun c => is_word c = true) kw.
Proof.
  intros H. simpl in H.
  repeat (destruct H as [<-|H]; [split; [discriminate | repeat constructor]|]).
  contradiction.
Qed.

Lemma mutation_keyword_test (kw s : jstring) :
  In kw MUTATION_KEYWORDS -> (test_keyword kw s = true <-> occurs_as_word kw s).
Proof.
  intros H. destruct (mutation_keyword_shape kw H) as [Hne Hw].
  apply test_keyword_spec; assumption.
Qed.

(** The loop stops at the first keyword of the list that the text
    holds; the keywords before it were tested and not found. *)
Lemma scan_keywords_found (kws : list jstring) (s : jstring)
      (tested : list jstring) (k : jstring) :
  scan_keywords kws s = (tested, Some k) ->
  exists before after,
    kws = before ++ k :: after /\ tested = before ++ [k]
    /\ test_keyword k s = true
    /\ Forall (fun k' => test_keyword k' s = false) before.
Proof.
  revert tested; induction kws as [|k0 kws IH]; intros tested; simpl.
  - discriminate.
  - destruct (test_keyword k0 s) eqn:E.
    + intros H. injection H as <- <-. exists [], kws. repeat split; auto.
    + destruct (scan_keywords kws s) as [tested' found] eqn:E'.
      intros H. injection H as <- ->.
      destruct (IH tested' eq_refl) as [before [after [-> [-> [Ht Hb]]]]].
      exists (k0 :: before), after. repeat split; auto.
Qed.


Lemma scan_keywords_none_inv (kws : list jstring) (s : jstring) (tested : list jstring) :
  scan_keywords kws s = (tested, None) ->
  Forall (fun k' => test_keyword k' s = false) kws.
Proof.
  revert tested; induction kws as [|k0 kws IH]; intros tested; simpl.
  - constructor.
  - destruct (test_keyword k0 s) eqn:E; [discriminate|].
    destruct (scan_keywords kws s) as [tested' found].
    intros H. injection H as <- ->. constructor; eauto.
Qed.


(** ** The trailing terminator *)

Lemma final_or_none_cons (c : char) (s : jstring) :
  s <> [] -> final_or None (c :: s) = final_or None s.
Proof.
  intros Hne. rewrite final_or_cons. unfold final_or.
  destruct (rev s) as [|d r] eqn:E; [|reflexivity].
  apply (f_equal (@rev char)) in E. rewrite rev_involutive in E. contradiction.
Qed.

Lemma forallb_space_final (s : jstring) (c : char) :
  forallb is_space s = true -> final_or None s = Some c -> is_space c = true.
Proof.
  intros Hall Hf. unfold final_or in Hf.
  destruct (rev s) as [|d r] eqn:E; [discriminate|]. simpl in Hf. injection Hf as ->.
  rewrite forallb_forall in Hall. apply Hall. apply in_rev. rewrite E. left. reflexivity.
Qed.

Lemma remove_first_cons (m : matcher) (c : char) (s : jstring) :
  remove_first m (c :: s) =
  match m (c :: s) with
  | Some n => skipn n (c :: s)
  | None => c :: remove_first m s
  end.
Proof. reflexivity. Qed.

(** On a text that does not end in white space, [/;\s*$/] can only
    match a semicolon that is the last code unit: [replace] removes
    that one semicolon, and nothing when the text ends otherwise. *)
Lemma replace_trailing_semicolon (s : jstring) :
  (forall c, final_or None s = Some c -> is_space c = false) ->
  remove_first match_trailing_semicolon s =
  match final_or None s with
  | Some c => if c =? 59 then removelast s else s
  | None => s
  end.
Proof.
  induction s as [|c s IH]; intros Hend.
  - reflexivity.
  - destruct s as [|d s].
    + simpl. unfold final_or. simpl. destruct (c =? 59); reflexivity.
    + assert (Hne : d :: s <> []) by discriminate.
      rewrite (final_or_none_cons c _ Hne) in *.
      rewrite remove_first_cons.
      change (match_trailing_semicolon (c :: d :: s))
        with (if (c =? 59) && forallb is_space (d :: s)
              then Some (length (c :: d :: s)) else None).
      destruct ((c =? 59) && forallb is_space (d :: s)) eqn:E.
      * apply andb_true_iff in E as [_ E].
        destruct (final_or None (d :: s)) as [e|] eqn:Ef.
        -- specialize (Hend e eq_refl).
           assert (Hs : is_space e = true).
           { apply (forallb_space_final (d :: s)); [exact E|].
             unfold final_or. unfold final_or in Ef. exact Ef. }
           congruence.
        -- unfold final_or in Ef. destruct (rev (d :: s)) eqn:Er; [|discriminate].
           apply (f_equal (@rev char)) in Er. rewrite rev_involutive in Er. discriminate.
      * rewrite (IH Hend).
        destruct (final_or None (d :: s)) as [e|]; [|reflexivity].
        destruct (e =? 59); reflexivity.
Qed.

Lemma head_drop_while (p : char -> bool) (s : jstring) (c : char) :
  head (drop_while p s) = Some c -> p c = false.
Proof.
  induction s as [|d s IH]; simpl; [discriminate|].
  destruct (p d) eqn:E; [assumption|]. simpl. intros H. injection H as <-. assumption.
Qed.

Lemma trim_final (query : jstring) (c : char) :
  final_or None (trim query) = Some c -> is_space c = false.
Proof.
  unfold trim, trimEnd, final_or. rewrite rev_involutive.
  destruct (head (drop_while is_space (rev (trimStart query)))) as [d|] eqn:E; [|discriminate].
  intros H. injection H as <-. eapply head_drop_while. exact E.
Qed.

(** What [validateQuery] looks at for the multiple-statement check: the
    trimmed text without its last code unit when that is a semicolon. *)
Lemma stripped_of_trimmed (query : jstring) :
  replace_first false re_trailing_semicolon (trim query) =
  match final_or None (trim query) with
  | Some c => if c =? 59 then removelast (trim query) else trim query
  | None => trim query
  end.
Proof.
  rewrite replace_trailing_direct. apply replace_trailing_semicolon. apply trim_final.
Qed.

End Classifier.

Section ClassifierClaims.

Import Safety.

Lemma scan_keywords_first (kws : list jstring) (s : jstring) :
  snd (scan_keywords kws s) = first_keyword kws s.
Proof.
  induction kws as [|k kws IH]; simpl; [reflexivity|].
  destruct (test_keyword k s); [reflexivity|].
  destruct (scan_keywords kws s) as [tested found]. exact IH.
Qed.

(** The instrumented run ends in the result of [validateQuery]. *)
Lemma validateQuery_trace_result (query : jstring) (allowMutations : bool) :
  snd (validateQuery_trace query allowMutations) = validateQuery query allowMutations.
Proof.
  unfold validateQuery, validateQuery_trace. destruct allowMutations; [reflexivity|].
  destruct (includes _ _); [reflexivity|].
  rewrite <- scan_keywords_first.
  destruct (scan_keywords _ _) as [tested [k|]]; reflexivity.
Qed.

Lemma validateQuery_cases (query : jstring) :
  validateQuery query false =
  if remaining_separator query then denied multiple_statements_reason
  else match snd (scan_keywords MUTATION_KEYWORDS (sanitized_text query)) with
       | Some keyword => denied (blocked_reason keyword)
       | None => allowed_result
       end.
Proof.
  rewrite scan_keywords_first.
  unfold validateQuery, remaining_separator, sanitized_text.
  destruct (includes _ _); [reflexivity|].
  destruct (first_keyword _ _) as [k|]; reflexivity.
Qed.

(** C3. A text that still holds a semicolon once one trailing terminator
    is removed is denied with the reason "multiple statements not
    allowed", whatever keywords it holds; the denial falls before any
    keyword is tested (the list of tested keywords is empty). *)
Theorem multiple_statements_denied (query : jstring) :
  In 59 (replace_first false re_trailing_semicolon (trim query)) ->
  validateQuery_trace query false
  = ([], {| allowed := false; reason := Some multiple_statements_reason |})
  /\ validateQuery query false
     = {| allowed := false; reason := Some multiple_statements_reason |}.
Proof.
  intros H. apply includes_semicolon in H.
  unfold validateQuery, validateQuery_trace. rewrite H. split; reflexivity.
Qed.

Lemma multiple_statements_denied_witness :
  In 59 (replace_first false re_trailing_semicolon (trim (str "SELECT 1; DROP TABLE x;")))
  /\ validateQuery_trace (str "SELECT 1; DROP TABLE x;") false
     = ([], {| allowed := false; reason := Some multiple_statements_reason |}).
Proof.
  assert (H : In 59 (replace_first false re_trailing_semicolon
                       (trim (str "SELECT 1; DROP TABLE x;")))).
  { apply includes_semicolon. vm_compute. reflexivity. }
  split; [exact H|].
  exact (proj1 (multiple_statements_denied (str "SELECT 1; DROP TABLE x;") H)).
Defined.


(** On [SELECT 1; DROP TABLE x] DROP stands in the sanitized text and
    the query is denied, but the reason is the multiple-statement one,
    which names no keyword. *)
Lemma keyword_after_separator_not_named :
  In (str "DROP") MUTATION_KEYWORDS
  /\ occurs_as_word (str "DROP") (sanitized_text (str "SELECT 1; DROP TABLE x"))
  /\ validateQuery (str "SELECT 1; DROP TABLE x") false = denied multiple_statements_reason
  /\ ~ names (validateQuery (str "SELECT 1; DROP TABLE x") false) (str "DROP").
Proof.
  assert (Hin : In (str "DROP") MUTATION_KEYWORDS).
  { vm_compute. do 3 right. left. reflexivity. }
  split; [exact Hin|]. split.
  { apply (mutation_keyword_test _ _ Hin). vm_compute. reflexivity. }
  split; [vm_compute; reflexivity|].
  intros [text [Hr Hi]].
  assert (Ht : text = multiple_statements_reason).
  { vm_compute in Hr. injection Hr as <-. reflexivity. }
  subst text. vm_compute in Hi. discriminate.
Qed.

Lemma no_keyword_by_test (s : jstring) :
  forallb (fun kw => negb (test_keyword kw s)) MUTATION_KEYWORDS = true ->
  forall kw, In kw MUTATION_KEYWORDS -> ~ occurs_as_word kw s.
Proof.
  intros H kw Hin Hocc. rewrite forallb_forall in H.
  apply (mutation_keyword_test kw s Hin) in Hocc.
  specialize (H kw Hin). rewrite Hocc in H. discriminate.
Qed.


(** The verdict is decided by the separator and the keywords of the
    sanitized text, and by nothing else. *)
Lemma validateQuery_allowed_iff (query : jstring) :
  allowed (validateQuery query false) = true <->
  remaining_separator query = false
  /\ forall kw, In kw MUTATION_KEYWORDS -> ~ occurs_as_word kw (sanitized_text query).
Proof.
  rewrite validateQuery_cases.
  destruct (remaining_separator query) eqn:Hsep.
  - split; [discriminate | intros [H _]; discriminate].
  - destruct (scan_keywords MUTATION_KEYWORDS (sanitized_text query))
      as [tested [first|]] eqn:Hscan; simpl.
    + split; [discriminate|]. intros [_ Hnone]. exfalso.
      apply scan_keywords_found in Hscan as [before [after [Heq [_ [Hfirst _]]]]].
      assert (Hfin : In first MUTATION_KEYWORDS).
      { rewrite Heq. apply in_or_app. right. left. reflexivity. }
      apply (Hnone first Hfin). apply (mutation_keyword_test first _ Hfin). exact Hfirst.
    + split; [|reflexivity]. intros _. split; [reflexivity|].
      apply no_keyword_by_test. apply scan_keywords_none_inv in Hscan.
      apply forallb_forall. intros kw Hin. rewrite Forall_forall in Hscan.
      rewrite (Hscan kw Hin). reflexivity.
Qed.

Lemma validateQuery_mutations_allowed (query : jstring) :
  validateQuery query true = allowed_result.
Proof. reflexivity. Qed.

End ClassifierClaims.

(** ** What the stripping passes remove *)

Section Stripping.

Import Safety.

Lemma remove_all_from_skip (m : matcher) (l r : jstring) :
  remove_all_from m (length l) (l ++ r) = remove_all_from m 0 r.
Proof. induction l as [|c l IH]; simpl; [reflexivity | exact IH]. Qed.

(** Code units at which the expression cannot start are kept. *)
Lemma replace_all_keeps (m : matcher) (pre r : jstring) :
  Forall (fun c => forall t, m (c :: t) = None) pre ->
  remove_all m (pre ++ r) = pre ++ remove_all m r.
Proof.
  unfold remove_all. induction 1 as [|c pre Hc _ IH]; simpl.
  - reflexivity.
  - rewrite Hc, IH. reflexivity.
Qed.

Lemma replace_all_identity (m : matcher) (s : jstring) :
  Forall (fun c => forall t, m (c :: t) = None) s -> remove_all m s = s.
Proof.
  intros H. rewrite <- (app_nil_r s) at 1.
  rewrite (replace_all_keeps m s [] H). simpl. apply app_nil_r.
Qed.

(** A match of [S (length l)] code units at the head of [c :: l ++ r]
    removes [c :: l]. *)
Lemma replace_all_match (m : matcher) (c : char) (l r : jstring) :
  m (c :: l ++ r) = Some (S (length l)) ->
  remove_all m (c :: l ++ r) = remove_all m r.
Proof.
  intros H. unfold remove_all. simpl. rewrite H. apply remove_all_from_skip.
Qed.

Lemma quoted_tail_closes (q : char) (body post : jstring) :
  ~ In q body -> ~ In 92 body ->
  quoted_tail q (body ++ q :: post) = Some (S (length body)).
Proof.
  induction body as [|c body IH]; intros Hq Hb; simpl.
  - rewrite N.eqb_refl. reflexivity.
  - destruct (N.eqb_spec c q) as [->|_]; [exfalso; apply Hq; left; reflexivity|].
    destruct (N.eqb_spec c 92) as [->|_]; [exfalso; apply Hb; left; reflexivity|].
    rewrite IH; [reflexivity | |]; intros H; [apply Hq | apply Hb]; right; exact H.
Qed.

Lemma match_quoted_other (q c : char) (t : jstring) :
  c <> q -> match_quoted q (c :: t) = None.
Proof. intros H. simpl. destruct (N.eqb_spec c q); [contradiction | reflexivity]. Qed.

Lemma not_in_forall (q : char) (s : jstring) (P : char -> Prop) :
  (forall c, c <> q -> P c) -> ~ In q s -> Forall P s.
Proof.
  intros HP Hn. apply Forall_forall. intros c Hc. apply HP. intros ->. contradiction.
Qed.

(** One pass over a quoted region: with no quote before it and neither
    quote nor backslash inside, the region goes, whatever else it
    holds, and the pass goes on after it. *)
Lemma replace_all_quoted (q : char) (pre body post : jstring) :
  ~ In q pre -> ~ In q body -> ~ In 92 body ->
  remove_all (match_quoted q) (pre ++ q :: body ++ q :: post)
  = pre ++ remove_all (match_quoted q) post.
Proof.
  intros Hpre Hq Hb.
  rewrite replace_all_keeps.
  2:{ apply (not_in_forall q); [|exact Hpre]. intros c Hc t. apply match_quoted_other. exact Hc. }
  f_equal.
  replace (q :: body ++ q :: post) with (q :: (body ++ [q]) ++ post)
    by (rewrite <- app_assoc; reflexivity).
  apply replace_all_match. rewrite <- app_assoc. simpl.
  rewrite N.eqb_refl, quoted_tail_closes by assumption.
  simpl. rewrite length_app. simpl. f_equal. lia.
Qed.

Lemma comment_tail_cons (a b : char) (r : jstring) :
  comment_tail (a :: b :: r) =
  if (a =? 42) && (b =? 47) then Some 2%nat else option_map S (comment_tail (b :: r)).
Proof. reflexivity. Qed.

Lemma comment_tail_closes (body post : jstring) :
  ~ In 42 body ->
  comment_tail (body ++ 42 :: 47 :: post) = Some (S (S (length body))).
Proof.
  induction body as [|c body IH]; intros Hs.
  - reflexivity.
  - assert (Hc : (c =? 42) = false).
    { apply N.eqb_neq. intros ->. apply Hs. left. reflexivity. }
    assert (Hs' : ~ In 42 body) by (intros H; apply Hs; right; exact H).
    specialize (IH Hs').
    destruct body as [|d body]; simpl app in *.
    + rewrite comment_tail_cons, Hc. reflexivity.
    + rewrite comment_tail_cons, Hc, IH. reflexivity.
Qed.

Lemma match_block_comment_other (c : char) (t : jstring) :
  c <> 47 -> match_block_comment (c :: t) = None.
Proof.
  intros H. unfold match_block_comment. destruct t; [reflexivity|].
  destruct (N.eqb_spec c 47); [contradiction | reflexivity].
Qed.

(** One pass over a block comment without a star inside. *)
Lemma replace_all_block_comment (pre body post : jstring) :
  ~ In 47 pre -> ~ In 42 body ->
  remove_all match_block_comment (pre ++ 47 :: 42 :: body ++ 42 :: 47 :: post)
  = pre ++ remove_all match_block_comment post.
Proof.
  intros Hpre Hs.
  rewrite replace_all_keeps.
  2:{ apply (not_in_forall 47); [|exact Hpre]. intros c Hc t.
      apply match_block_comment_other. exact Hc. }
  f_equal.
  replace (47 :: 42 :: body ++ 42 :: 47 :: post)
    with (47 :: (42 :: body ++ [42; 47]) ++ post)
    by (simpl; rewrite <- app_assoc; reflexivity).
  apply replace_all_match. simpl. rewrite <- app_assoc. simpl.
  rewrite comment_tail_closes by assumption.
  simpl. rewrite length_app. simpl. f_equal. lia.
Qed.

Lemma match_line_comment_other (c : char) (t : jstring) :
  c <> 45 -> match_line_comment (c :: t) = None.
Proof.
  intros H. unfold match_line_comment. destruct t; [reflexivity|].
  destruct (N.eqb_spec c 45); [contradiction | reflexivity].
Qed.

Lemma take_while_line (body post : jstring) :
  ~ In 10 body ->
  take_while (fun c => negb (c =? 10)) (body ++ 10 :: post) = body.
Proof.
  induction body as [|c body IH]; intros Hn; simpl.
  - reflexivity.
  - destruct (N.eqb_spec c 10) as [->|_]; [exfalso; apply Hn; left; reflexivity|].
    simpl. rewrite IH; [reflexivity|]. intros H. apply Hn. right. exact H.
Qed.

(** One pass over a line comment: it goes up to its line feed, which
    stays. *)
Lemma replace_all_line_comment (pre body post : jstring) :
  ~ In 45 pre -> ~ In 10 body ->
  remove_all match_line_comment (pre ++ 45 :: 45 :: body ++ 10 :: post)
  = pre ++ remove_all match_line_comment (10 :: post).
Proof.
  intros Hpre Hn.
  rewrite replace_all_keeps.
  2:{ apply (not_in_forall 45); [|exact Hpre]. intros c Hc t.
      apply match_line_comment_other. exact Hc. }
  f_equal.
  replace (45 :: 45 :: body ++ 10 :: post) with (45 :: (45 :: body) ++ 10 :: post)
    by reflexivity.
  apply replace_all_match. simpl. rewrite take_while_line by assumption. reflexivity.
Qed.

Lemma quoted_pass_identity (q : char) (s : jstring) :
  ~ In q s -> remove_all (match_quoted q) s = s.
Proof.
  intros H. apply replace_all_identity. apply (not_in_forall q); [|exact H].
  intros c Hc t. apply match_quoted_other. exact Hc.
Qed.

Lemma block_comment_pass_identity (s : jstring) :
  ~ In 47 s -> remove_all match_block_comment s = s.
Proof.
  intros H. apply replace_all_identity. apply (not_in_forall 47); [|exact H].
  intros c Hc t. apply match_block_comment_other. exact Hc.
Qed.

Lemma line_comment_pass_identity (s : jstring) :
  ~ In 45 s -> remove_all match_line_comment s = s.
Proof.
  intros H. apply replace_all_identity. apply (not_in_forall 45); [|exact H].
  intros c Hc t. apply match_line_comment_other. exact Hc.
Qed.

Lemma plain_app (pre post : jstring) : plain pre -> plain post -> plain (pre ++ post).
Proof.
  unfold plain. intros (A1 & A2 & A3 & A4) (B1 & B2 & B3 & B4).
  repeat split; intros H; apply in_app_or in H; tauto.
Qed.

Lemma stripLiteralsAndComments_plain (s : jstring) :
  plain s -> stripLiteralsAndComments s = s.
Proof.
  intros (H1 & H2 & H3 & H4). rewrite stripLiteralsAndComments_passes. unfold strip_passes.
  rewrite (quoted_pass_identity 39 s H1), (quoted_pass_identity 34 s H2),
    (block_comment_pass_identity s H3). apply line_comment_pass_identity. exact H4.
Qed.

Lemma passes_after_quotes_plain (s : jstring) :
  plain s ->
  remove_all match_line_comment
    (remove_all match_block_comment (remove_all (match_quoted 34) s)) = s.
Proof.
  intros (H1 & H2 & H3 & H4).
  rewrite (quoted_pass_identity 34 s H2), (block_comment_pass_identity s H3).
  apply line_comment_pass_identity. exact H4.
Qed.

(** A single-quoted literal between plain text leaves no trace in the
    sanitized text, keywords in it included. *)
Lemma single_quoted_content_ignored (pre body post : jstring) :
  plain pre -> plain post -> ~ In 39 body -> ~ In 92 body ->
  stripLiteralsAndComments (pre ++ 39 :: body ++ 39 :: post) = pre ++ post.
Proof.
  intros Hpre Hpost Hq Hb. rewrite stripLiteralsAndComments_passes. unfold strip_passes.
  rewrite replace_all_quoted; [| apply Hpre | exact Hq | exact Hb].
  rewrite (quoted_pass_identity 39 post) by apply Hpost.
  apply passes_after_quotes_plain. apply plain_app; assumption.
Qed.

(** A double-quoted identifier between plain text. *)
Lemma double_quoted_content_ignored (pre body post : jstring) :
  plain pre -> plain post -> ~ In 34 body -> ~ In 92 body -> ~ In 39 body ->
  stripLiteralsAndComments (pre ++ 34 :: body ++ 34 :: post) = pre ++ post.
Proof.
  intros Hpre Hpost Hq Hb Hs. rewrite stripLiteralsAndComments_passes. unfold strip_passes.
  rewrite (quoted_pass_identity 39).
  2:{ destruct Hpre as (Hp1 & _), Hpost as (Hp2 & _). intros H.
      apply in_app_or in H as [H|H]; [contradiction|].
      destruct H as [H|H]; [discriminate|].
      apply in_app_or in H as [H|H]; [contradiction|].
      destruct H as [H|H]; [discriminate | contradiction]. }
  rewrite replace_all_quoted; [| apply Hpre | exact Hq | exact Hb].
  rewrite (quoted_pass_identity 34 post) by apply Hpost.
  pose proof (plain_app pre post Hpre Hpost) as (_ & _ & H3 & H4).
  rewrite (block_comment_pass_identity _ H3). apply line_comment_pass_identity. exact H4.
Qed.

(** A block comment between plain text. *)
Lemma block_comment_content_ignored (pre body post : jstring) :
  plain pre -> plain post -> ~ In 42 body -> ~ In 39 body -> ~ In 34 body ->
  stripLiteralsAndComments (pre ++ 47 :: 42 :: body ++ 42 :: 47 :: post) = pre ++ post.
Proof.
  intros Hpre Hpost Hstar Hs Hd. rewrite stripLiteralsAndComments_passes. unfold strip_passes.
  assert (Hno : forall q, q <> 47 -> q <> 42 -> ~ In q pre -> ~ In q post -> ~ In q body ->
                ~ In q (pre ++ 47 :: 42 :: body ++ 42 :: 47 :: post)).
  { intros q H47 H42 H1 H2 H3 H.
    apply in_app_or in H as [H|H]; [contradiction|].
    destruct H as [H|[H|H]]; [congruence | congruence |].
    apply in_app_or in H as [H|H]; [contradiction|].
    destruct H as [H|[H|H]]; [congruence | congruence | contradiction]. }
  rewrite (quoted_pass_identity 39)
    by (apply Hno; [discriminate | discriminate | apply Hpre | apply Hpost | exact Hs]).
  rewrite (quoted_pass_identity 34)
    by (apply Hno; [discriminate | discriminate | apply Hpre | apply Hpost | exact Hd]).
  rewrite replace_all_block_comment; [| apply Hpre | exact Hstar].
  rewrite (block_comment_pass_identity post) by apply Hpost.
  apply line_comment_pass_identity. apply (plain_app pre post Hpre Hpost).
Qed.

(** A line comment between plain text: it goes, its line feed stays. *)
Lemma line_comment_content_ignored (pre body post : jstring) :
  plain pre -> plain post ->
  ~ In 10 body -> ~ In 39 body -> ~ In 34 body -> ~ In 47 body ->
  stripLiteralsAndComments (pre ++ 45 :: 45 :: body ++ 10 :: post) = pre ++ 10 :: post.
Proof.
  intros Hpre Hpost Hn Hs Hd Hslash. rewrite stripLiteralsAndComments_passes. unfold strip_passes.
  assert (Hno : forall q, q <> 45 -> q <> 10 -> ~ In q pre -> ~ In q post -> ~ In q body ->
                ~ In q (pre ++ 45 :: 45 :: body ++ 10 :: post)).
  { intros q H45 H10 H1 H2 H3 H.
    apply in_app_or in H as [H|H]; [contradiction|].
    destruct H as [H|[H|H]]; [congruence | congruence |].
    apply in_app_or in H as [H|H]; [contradiction|].
    destruct H as [H|H]; [congruence | contradiction]. }
  rewrite (quoted_pass_identity 39)
    by (apply Hno; [discriminate | discriminate | apply Hpre | apply Hpost | exact Hs]).
  rewrite (quoted_pass_identity 34)
    by (apply Hno; [discriminate | discriminate | apply Hpre | apply Hpost | exact Hd]).
  rewrite (block_comment_pass_identity)
    by (apply Hno; [discriminate | discriminate | apply Hpre | apply Hpost | exact Hslash]).
  rewrite replace_all_line_comment; [| apply Hpre | exact Hn].
  f_equal. apply line_comment_pass_identity.
  intros [H|H]; [discriminate | apply Hpost in H; exact H].
Qed.

End Stripping.

(** ** The removal passes against the specification's reading of a text *)

Section RemovalPasses.

Import Safety SqlText.

Lemma has_spec (c : char) (s : jstring) : has c s = false <-> ~ In c s.
Proof.
  unfold has. split.
  - intros H Hin. assert (E : existsb (N.eqb c) s = true).
    { apply existsb_exists. exists c. split; [exact Hin | apply N.eqb_refl]. }
    congruence.
  - intros H. destruct (existsb (N.eqb c) s) eqn:E; [|reflexivity].
    apply existsb_exists in E as (d & Hd & Heq). apply N.eqb_eq in Heq. subst d. contradiction.
Qed.

Lemma has_app (c : char) (a b : jstring) : has c (a ++ b) = has c a || has c b.
Proof. apply existsb_app. Qed.











(** *** The passes over a cut text *)








End RemovalPasses.

(** ** The classifier against the specification's reading of a text *)

Section RegionClaims.

Import Safety SqlText.

(** [/;\s*$/] removes a semicolon followed by white space up to the end
    of the text, whatever stands before it. *)
Lemma remove_trailing_terminator (pre ws : jstring) :
  forallb is_space ws = true ->
  remove_first match_trailing_semicolon (pre ++ 59 :: ws) = pre.
Proof.
  intros Hws. induction pre as [|c pre IH].
  - simpl. rewrite Hws. simpl. apply skipn_all.
  - change ((c :: pre) ++ 59 :: ws) with (c :: (pre ++ 59 :: ws)).
    rewrite remove_first_cons.
    assert (Hm : match_trailing_semicolon (c :: pre ++ 59 :: ws) = None).
    { unfold match_trailing_semicolon. rewrite forallb_app. simpl.
      rewrite andb_false_r, andb_false_r. reflexivity. }
    rewrite Hm, IH. reflexivity.
Qed.

(** It removes nothing from a text that does not end that way. *)
Lemma remove_trailing_nothing (s : jstring) :
  (forall pre ws, s = pre ++ 59 :: ws -> forallb is_space ws = false) ->
  remove_first match_trailing_semicolon s = s.
Proof.
  induction s as [|c s IH]; intros H; [reflexivity|].
  rewrite remove_first_cons.
  assert (Hm : match_trailing_semicolon (c :: s) = None).
  { unfold match_trailing_semicolon. destruct (c =? 59) eqn:Hc; [|reflexivity].
    apply N.eqb_eq in Hc. subst c. rewrite (H [] s eq_refl). reflexivity. }
  rewrite Hm, IH; [reflexivity|].
  intros pre ws ->. apply (H (c :: pre) ws). reflexivity.
Qed.

Lemma no_semicolon_single_statement (s : jstring) :
  has 59 s = false -> single_statement s.
Proof.
  intros H pre post ->. apply has_spec in H. exfalso. apply H.
  apply in_or_app. right. left. reflexivity.
Qed.






(** C1. The claim fails on the code. In
    [/* user's table */ DELETE FROM users /* don't keep */] the word
    DELETE stands outside every literal and comment, and
    [validateQuery] with mutations disabled allows the query: the pass
    that removes single-quoted literals runs over the comments too and
    takes everything between the two apostrophes, the statement
    included. The same happens between two line comments. The
    classifier of the other source cited, which tests the leading token
    only, allows a DELETE inside a common table expression. *)
Theorem apostrophes_in_comments_hide_mutation :
  (trim (str "/* user's table */ DELETE FROM users /* don't keep */")
   = render [BlockComment (str " user's table "); Outside (str " DELETE FROM users ");
             BlockComment (str " don't keep ")]
   /\ cut [BlockComment (str " user's table "); Outside (str " DELETE FROM users ");
           BlockComment (str " don't keep ")] = true
   /\ single_statement (trim (str "/* user's table */ DELETE FROM users /* don't keep */"))
   /\ occurs_as_word (str "DELETE")
        (outside_text [BlockComment (str " user's table "); Outside (str " DELETE FROM users ");
                       BlockComment (str " don't keep ")])
   /\ validateQuery (str "/* user's table */ DELETE FROM users /* don't keep */") false
      = allowed_result)
  /\ (trim (str "-- it's" ++ [10] ++ str "DROP TABLE x -- it's")
      = render [LineComment (str " it's"); Outside (10 :: str "DROP TABLE x ");
                LineComment (str " it's")]
      /\ cut [LineComment (str " it's"); Outside (10 :: str "DROP TABLE x ");
              LineComment (str " it's")] = true
      /\ occurs_as_word (str "DROP")
           (outside_text [LineComment (str " it's"); Outside (10 :: str "DROP TABLE x ");
                          LineComment (str " it's")])
      /\ validateQuery (str "-- it's" ++ [10] ++ str "DROP TABLE x -- it's") false
         = allowed_result)
  /\ (cut [Outside (str "WITH x AS (DELETE FROM t RETURNING *) SELECT * FROM x")] = true
      /\ occurs_as_word (str "DELETE")
           (outside_text [Outside (str "WITH x AS (DELETE FROM t RETURNING *) SELECT * FROM x")])
      /\ forall toUpperCase,
           SafetyLeading.validateQuery toUpperCase
             (str "WITH x AS (DELETE FROM t RETURNING *) SELECT * FROM x") false
           = allowed_result).
Proof.
  assert (Hdelete : In (str "DELETE") MUTATION_KEYWORDS) by (vm_compute; tauto).
  assert (Hdrop : In (str "DROP") MUTATION_KEYWORDS) by (vm_compute; tauto).
  split; [|split].
  - split; [vm_compute; reflexivity|].
    split; [vm_compute; reflexivity|].
    split; [apply no_semicolon_single_statement; vm_compute; reflexivity|].
    split; [apply (mutation_keyword_test _ _ Hdelete); vm_compute; reflexivity|].
    vm_compute. reflexivity.
  - split; [vm_compute; reflexivity|].
    split; [vm_compute; reflexivity|].
    split; [apply (mutation_keyword_test _ _ Hdrop); vm_compute; reflexivity|].
    vm_compute. reflexivity.
  - split; [vm_compute; reflexivity|].
    split; [apply (mutation_keyword_test _ _ Hdelete); vm_compute; reflexivity|].
    intros toUpperCase. vm_compute. reflexivity.
Qed.

(** The same slip the other way round: in
    [/* user's data */ SELECT 'please delete'] the only keyword lies
    inside the literal, but the first pass pairs the apostrophe of the
    comment with the one that opens the literal, the comment loses its
    end, and the word of the literal is found. *)
Example apostrophe_in_comment_exposes_literal :
  cut [BlockComment (str " user's data "); Outside (str " SELECT ");
       Literal (str "please delete")] = true
  /\ clean [BlockComment (str " user's data "); Outside (str " SELECT ");
            Literal (str "please delete")] = false
  /\ render [BlockComment (str " user's data "); Outside (str " SELECT ");
             Literal (str "please delete")]
     = str "/* user's data */ SELECT 'please delete'"
  /\ validateQuery (str "/* user's data */ SELECT 'please delete'") false
     = denied (blocked_reason (str "DELETE")).
Proof. repeat split; vm_compute; reflexivity. Qed.

(** What else the passes mistake, each time with the only keyword
    inside a literal and the query denied: a backslash before the
    closing quote keeps the literal open up to the next quote; a single
    quote inside a double-quoted identifier opens a literal for the
    first pass; a slash and a star left next to each other by the
    removal of a literal open a block comment for the third pass, whose
    removal joins two fragments into a keyword. *)
Example removal_passes_mistakes :
  (cut [Outside (str "SELECT "); Literal (str "C:" ++ [92]); Outside (str " AS p, ");
        Literal (str "delete"); Outside (str " AS w")] = true
   /\ render [Outside (str "SELECT "); Literal (str "C:" ++ [92]); Outside (str " AS p, ");
              Literal (str "delete"); Outside (str " AS w")]
      = (str "SELECT 'C:" ++ [92] ++ str "' AS p, 'delete' AS w")
   /\ validateQuery ((str "SELECT 'C:" ++ [92] ++ str "' AS p, 'delete' AS w")) false
      = denied (blocked_reason (str "DELETE")))
  /\ (cut [Outside (str "SELECT "); Identifier (str "it's"); Outside (str ", ");
           Literal (str " drop ")] = true
      /\ validateQuery (str "SELECT " ++ [34] ++ str "it's" ++ [34] ++ str ", ' drop '") false
         = denied (blocked_reason (str "DROP")))
  /\ (cut [Outside (str "SELECT DR/"); Literal []; Outside (str "* x */OP")] = true
      /\ (forall kw, In kw MUTATION_KEYWORDS ->
            ~ occurs_as_word kw
                (outside_text [Outside (str "SELECT DR/"); Literal [];
                               Outside (str "* x */OP")]))
      /\ validateQuery (str "SELECT DR/''* x */OP") false
         = denied (blocked_reason (str "DROP"))).
Proof.
  split; [|split].
  - repeat split; vm_compute; reflexivity.
  - split; vm_compute; reflexivity.
  - split; [vm_compute; reflexivity|].
    split; [apply no_keyword_by_test; vm_compute; reflexivity|].
    vm_compute. reflexivity.
Qed.

End RegionClaims.

(** ** The classifier on some texts *)

Section ClassifierExamples.

Import Safety.

(** The passes run over the whole text one after the other, so an
    apostrophe inside a comment opens a quoted region for the first
    pass: the statement between the two line comments is removed with
    it and the query is allowed. *)
Example apostrophe_in_comment_hides_statement :
  sanitized_text (str "-- it's" ++ [10] ++ str "DROP TABLE x -- it's") = []
  /\ validateQuery (str "-- it's" ++ [10] ++ str "DROP TABLE x -- it's") false
     = allowed_result.
Proof. split; vm_compute; reflexivity. Qed.

(** A backslash keeps the quote after it inside the literal. *)
Example escaped_quote_stays_inside :
  sanitized_text (str "SELECT 'it\'s DROP' FROM t") = str "SELECT  FROM t"
  /\ validateQuery (str "SELECT 'it\'s DROP' FROM t") false = allowed_result.
Proof. split; vm_compute; reflexivity. Qed.

(** A quote that is never closed opens nothing. *)
Example unterminated_literal_is_scanned :
  sanitized_text (str "SELECT 'DROP") = str "SELECT 'DROP"
  /\ validateQuery (str "SELECT 'DROP") false = denied (blocked_reason (str "DROP")).
Proof. split; vm_compute; reflexivity. Qed.

(** A block comment ends at the first star-slash after its opening. *)
Example block_comment_ends_at_first_close :
  sanitized_text (str "SELECT /*/ DROP /**/ 1 /* x */ FROM t") = str "SELECT  1  FROM t".
Proof. vm_compute. reflexivity. Qed.

(** Removing a region joins what stood on both sides of it. *)
Example joined_fragments_form_keyword :
  validateQuery (str "SELECT DR''OP") false = denied (blocked_reason (str "DROP")).
Proof. vm_compute. reflexivity. Qed.

(** Of two keywords, the one listed first is named. *)
Example first_listed_keyword_named :
  validateQuery (str "drop table t /* then */ insert") false
  = denied (blocked_reason (str "INSERT")).
Proof. vm_compute. reflexivity. Qed.

(** The trailing terminator and the white space around it are no
    second statement. *)
Example trailing_terminator_allowed :
  validateQuery (str "  select * from dropped ;  ") false = allowed_result.
Proof. vm_compute. reflexivity. Qed.

(** The classifier of the leading token lets a mutation inside a
    common table expression through; the scanning one denies it. *)
Example leading_token_misses_cte :
  SafetyLeading.validateQuery toUpperCase_ascii
    (str "WITH x AS (DELETE FROM t RETURNING *) SELECT * FROM x") false = allowed_result
  /\ validateQuery (str "WITH x AS (DELETE FROM t RETURNING *) SELECT * FROM x") false
     = denied (blocked_reason (str "DELETE")).
Proof. split; vm_compute; reflexivity. Qed.

Example leading_token_denies_leading_keyword :
  SafetyLeading.validateQuery toUpperCase_ascii (str "  delete from t") false
  = denied (blocked_reason (str "DELETE")).
Proof. vm_compute. reflexivity. Qed.

Lemma isReadOnly_cases (globalAllowMutations : bool) :
  isReadOnly (Some true) globalAllowMutations = true
  /\ isReadOnly (Some false) globalAllowMutations = false
  /\ isReadOnly None globalAllowMutations = negb globalAllowMutations.
Proof. repeat split. Qed.

End ClassifierExamples.

(** ** The formatter (format.ts) *)

Section Formatter.

Import Format.

Lemma slice0_firstn {A} (l : list A) (n : nat) : slice0 l (Z.of_nat n) = firstn n l.
Proof.
  unfold slice0. destruct (Z.ltb_spec (Z.of_nat n) 0); [lia|].
  rewrite Nat2Z.id. reflexivity.
Qed.

Lemma sanitizeCell_long (s : jstring) :
  (MAX_CELL_WIDTH < length s)%nat ->
  sanitizeCell (VPrim s) = firstn (MAX_CELL_WIDTH - 3) s ++ str "...".
Proof.
  intros H. unfold sanitizeCell.
  destruct (Nat.ltb_spec MAX_CELL_WIDTH (length s)); [|lia].
  rewrite slice0_firstn. reflexivity.
Qed.

Lemma sanitizeCell_short (s : jstring) :
  (length s <= MAX_CELL_WIDTH)%nat -> sanitizeCell (VPrim s) = s.
Proof.
  intros H. unfold sanitizeCell.
  destruct (Nat.ltb_spec MAX_CELL_WIDTH (length s)); [lia | reflexivity].
Qed.

(** C9. A text cell (a value rendered through [String(value)]) longer
    than the 200 code units of [MAX_CELL_WIDTH] comes out exactly 200
    long: its first 197 code units and the three dots. A text cell of
    at most 200 code units comes out as it is. *)
Theorem sanitizeCell_text (s : jstring) :
  ((MAX_CELL_WIDTH < length s)%nat ->
     length (sanitizeCell (VPrim s)) = MAX_CELL_WIDTH
     /\ sanitizeCell (VPrim s) = firstn 197 s ++ str "...")
  /\ ((length s <= MAX_CELL_WIDTH)%nat -> sanitizeCell (VPrim s) = s).
Proof.
  split.
  - intros H. rewrite (sanitizeCell_long s H). split; [|reflexivity].
    rewrite length_app, length_firstn.
    change (length (str "...")) with 3%nat.
    change MAX_CELL_WIDTH with 200%nat in *. lia.
  - apply sanitizeCell_short.
Qed.

Lemma sanitizeCell_text_witness :
  ((MAX_CELL_WIDTH < length (List.repeat 97 201))%nat
   /\ length (sanitizeCell (VPrim (List.repeat 97 201))) = MAX_CELL_WIDTH)
  /\ ((length (str "alice") <= MAX_CELL_WIDTH)%nat
      /\ sanitizeCell (VPrim (str "alice")) = str "alice").
Proof.
  split.
  - assert (H : (MAX_CELL_WIDTH < length (List.repeat 97 201))%nat)
      by (vm_compute; lia).
    split; [exact H|].
    exact (proj1 (proj1 (sanitizeCell_text (List.repeat 97 201)) H)).
  - assert (H : (length (str "alice") <= MAX_CELL_WIDTH)%nat) by (vm_compute; lia).
    split; [exact H|].
    exact (proj2 (sanitizeCell_text (str "alice")) H).
Defined.

(** The other cases of [sanitizeCell] do not go through the width
    check. *)
Lemma sanitizeCell_markers :
  sanitizeCell VNull = str "NULL" /\ sanitizeCell VUndefined = str "NULL"
  /\ (forall n, sanitizeCell (VBlob n) = str "[BLOB " ++ nat_to_jstring n ++ str " bytes]")
  /\ (forall json, sanitizeCell (VObject (Some json)) = json)
  /\ sanitizeCell (VObject None) = str "[Object]".
Proof. repeat split. Qed.

(** *** Columns *)

Lemma agree_on_refl (keys : list jstring) (r : row) : agree_on keys r r.
Proof. intros c _. reflexivity. Qed.

Lemma scan_row_names (columns : list Column) (r : row) :
  List.map name (fst (scan_row columns r)) = List.map name columns.
Proof.
  induction columns as [|col columns IH]; simpl; [reflexivity|].
  destruct (scan_row columns r) as [rest' cells]. simpl in *. rewrite IH. reflexivity.
Qed.

Lemma scan_row_cells (columns : list Column) (r : row) :
  snd (scan_row columns r)
  = List.map (fun c => sanitizeCell (get r c)) (List.map name columns).
Proof.
  induction columns as [|col columns IH]; simpl; [reflexivity|].
  destruct (scan_row columns r) as [rest' cells]. simpl in *. rewrite IH. reflexivity.
Qed.

Lemma scan_row_ext (columns : list Column) (r r' : row) :
  agree_on (List.map name columns) r r' -> scan_row columns r = scan_row columns r'.
Proof.
  induction columns as [|col columns IH]; intros H; simpl; [reflexivity|].
  rewrite IH by (intros c Hc; apply H; right; exact Hc).
  rewrite (H (name col)) by (left; reflexivity). reflexivity.
Qed.

Lemma scan_rows_names (columns : list Column) (rows : list row) :
  List.map name (fst (scan_rows columns rows)) = List.map name columns.
Proof.
  revert columns; induction rows as [|r rows IH]; intros columns; simpl; [reflexivity|].
  pose proof (scan_row_names columns r) as Hr.
  destruct (scan_row columns r) as [columns1 cells]. simpl in Hr.
  specialize (IH columns1).
  destruct (scan_rows columns1 rows) as [columns2 grid]. simpl in *. congruence.
Qed.

Lemma scan_rows_cells (columns : list Column) (rows : list row) :
  snd (scan_rows columns rows)
  = List.map (fun r => List.map (fun c => sanitizeCell (get r c)) (List.map name columns)) rows.
Proof.
  revert columns; induction rows as [|r rows IH]; intros columns; simpl; [reflexivity|].
  pose proof (scan_row_names columns r) as Hn.
  pose proof (scan_row_cells columns r) as Hc.
  destruct (scan_row columns r) as [columns1 cells]. simpl in Hn, Hc.
  specialize (IH columns1).
  destruct (scan_rows columns1 rows) as [columns2 grid]. simpl in *.
  rewrite Hc, IH, Hn. reflexivity.
Qed.

Lemma scan_rows_ext (columns : list Column) (rows rows' : list row) :
  Forall2 (agree_on (List.map name columns)) rows rows' ->
  scan_rows columns rows = scan_rows columns rows'.
Proof.
  revert columns rows'. induction rows as [|r rows IH]; intros columns rows' H.
  - inversion H; subst. reflexivity.
  - inversion H as [|? r' ? rows'' Hr Hrest]; subst. simpl.
    rewrite <- (scan_row_ext columns r r' Hr).
    pose proof (scan_row_names columns r) as Hn.
    destruct (scan_row columns r) as [columns1 cells]. simpl in Hn.
    rewrite (IH columns1 rows''); [reflexivity|]. rewrite Hn. exact Hrest.
Qed.

Lemma initial_columns_names (keys : list jstring) :
  List.map name (initial_columns keys) = keys.
Proof.
  unfold initial_columns. rewrite List.map_map. simpl. apply List.map_id.
Qed.

Lemma csv_line_ext (keys : list jstring) (r r' : row) :
  agree_on keys r r' -> csv_line keys r = csv_line keys r'.
Proof.
  intros H. unfold csv_line. f_equal. apply List.map_ext_in.
  intros c Hc. rewrite (H c Hc). reflexivity.
Qed.

Lemma formatCsv_ext (first : row) (later later' : list row) :
  Forall2 (agree_on (Object_keys first)) later later' ->
  formatCsv (first :: later') = formatCsv (first :: later).
Proof.
  intros H.
  assert (Hl : List.map (csv_line (Object_keys first)) later'
             = List.map (csv_line (Object_keys first)) later).
  { induction H as [|r r' later later' Hr _ IH]; simpl; [reflexivity|].
    rewrite (csv_line_ext _ r r' Hr), IH. reflexivity. }
  unfold formatCsv. simpl first_row_keys.
  change (Ok (Object_keys first) ≫= ?k) with (k (Object_keys first)).
  cbv beta. rewrite !List.map_cons, Hl. reflexivity.
Qed.

Lemma Forall2_length_eq {A} (P : A -> A -> Prop) (l l' : list A) :
  Forall2 P l l' -> length l = length l'.
Proof. induction 1; simpl; congruence. Qed.

Lemma formatTable_ext (first : row) (later later' : list row) (totalAvailable : option Z) :
  Forall2 (agree_on (Object_keys first)) later later' ->
  formatTable (first :: later') totalAvailable = formatTable (first :: later) totalAvailable.
Proof.
  intros H. unfold formatTable. simpl first_row_keys.
  change (Ok (Object_keys first) ≫= ?k) with (k (Object_keys first)).
  assert (Hs : scan_rows (initial_columns (Object_keys first)) (first :: later')
             = scan_rows (initial_columns (Object_keys first)) (first :: later)).
  { symmetry. apply scan_rows_ext. rewrite initial_columns_names.
    constructor; [apply agree_on_refl | exact H]. }
  cbv beta. rewrite Hs.
  replace (length (first :: later')) with (length (first :: later))
    by (simpl; f_equal; apply (Forall2_length_eq _ _ _ H)).
  reflexivity.
Qed.

Lemma formatCsv_unfold (first : row) (later : list row) :
  formatCsv (first :: later)
  = Ok (join [10] (csv_header (Object_keys first)
                   :: List.map (csv_line (Object_keys first)) (first :: later))).
Proof. reflexivity. Qed.

Lemma formatTable_unfold (first : row) (later : list row) (totalAvailable : option Z) :
  formatTable (first :: later) totalAvailable
  = let columns := fst (scan_rows (initial_columns (Object_keys first)) (first :: later)) in
    let cellGrid := snd (scan_rows (initial_columns (Object_keys first)) (first :: later)) in
    Ok (join [10] ([table_header columns; table_separator columns]
                   ++ table_body columns cellGrid
                   ++ [table_caption (S (length later)) totalAvailable])).
Proof.
  unfold formatTable. simpl first_row_keys.
  change (Ok (Object_keys first) ≫= ?k) with (k (Object_keys first)). cbv beta.
  destruct (scan_rows (initial_columns (Object_keys first)) (first :: later)). reflexivity.
Qed.

Lemma own_keys_order_plain (created : list jstring) :
  Forall (fun k => array_index k = None) created -> own_keys_order created = created.
Proof.
  intros H. unfold own_keys_order.
  induction H as [|k created Hk H0 IH]; [reflexivity|].
  simpl. rewrite Hk. simpl.
  destruct (List.flat_map _ created) as [|e l] eqn:E.
  - simpl in *. f_equal. exact IH.
  - exfalso. clear IH.
    assert (Hin : In e (List.flat_map (fun k0 => match array_index k0 with
                                                 | Some i => [(i, k0)]
                                                 | None => []
                                                 end) created))
      by (rewrite E; left; reflexivity).
    apply in_flat_map in Hin as (k0 & Hk0 & He).
    rewrite Forall_forall in H0. rewrite (H0 k0 Hk0) in He. destruct He.
Qed.

Lemma own_with_property (r : row) (k c : jstring) (v : value) :
  k <> c -> own (with_property r k v) c = own r c.
Proof.
  intros Hne. induction r as [|[k' v'] r IH]; simpl.
  - destruct (decide (k = c)); [contradiction | reflexivity].
  - destruct (decide (k' = k)) as [->|Hk]; simpl.
    + destruct (decide (k = c)); [contradiction | reflexivity].
    + destruct (decide (k' = c)); [reflexivity | exact IH].
Qed.

(** A property created under a name that is none of [keys] changes
    nothing of what the row reads at [keys]. *)
Lemma agree_on_with_property (keys : list jstring) (r : row) (k : jstring) (v : value) :
  ~ In k keys -> agree_on keys r (with_property r k v).
Proof.
  intros Hk c Hc. unfold get. rewrite own_with_property; [reflexivity|].
  intros ->. contradiction.
Qed.

Lemma pad_cells_by_name (f : jstring -> jstring) (columns : list Column) :
  pad_cells (List.map f (List.map name columns)) columns
  = List.map (fun c => padEnd (f (name c)) (width c)) columns.
Proof.
  induction columns as [|col columns IH]; simpl; [reflexivity|].
  rewrite IH. reflexivity.
Qed.

(** C10, as amended. For a non-empty list of rows, the columns of the
    CSV and of the table are the keys of the first row in the order of
    [Object.keys]: the keys that are array indices first, in ascending
    order, then the other keys in insertion order (so in insertion
    order when no key is an array index). The CSV is the line of the
    escaped keys followed by one line for each row, made of the row's
    cells at those keys; the table's header, separator and body lines
    have one field for each of those keys, in that order. Rows that
    read the same at the first row's keys give the same CSV and the
    same table, and a property created in a row under another name
    changes nothing of what the row reads at those keys: a key that
    only a later row has yields no column and its values show
    nowhere. *)
Theorem columns_come_from_first_row
        (first : row) (later : list row) (totalAvailable : option Z) :
  (Forall (fun k => array_index k = None) (List.map fst first) ->
   Object_keys first = List.map fst first)
  /\ formatCsv (first :: later)
     = Ok (join [10]
             (join [44] (List.map csvEscape (Object_keys first))
              :: List.map (fun r => join [44]
                                      (List.map (fun k => csvEscape (sanitizeCell (get r k)))
                                                (Object_keys first)))
                          (first :: later)))
  /\ (exists columns,
        List.map name columns = Object_keys first
        /\ formatTable (first :: later) totalAvailable
           = Ok (join [10]
                   ([join (str " | ") (List.map (fun c => padEnd (name c) (width c)) columns);
                     join [9472; 9532; 9472]
                          (List.map (fun c => repeat_str [9472] (width c)) columns)]
                    ++ List.map (fun r => join (str " | ")
                                            (List.map (fun c => padEnd (sanitizeCell (get r (name c)))
                                                                       (width c))
                                                      columns))
                                (first :: later)
                    ++ [table_caption (S (length later)) totalAvailable])))
  /\ (forall later',
        Forall2 (agree_on (Object_keys first)) later later' ->
        formatCsv (first :: later') = formatCsv (first :: later)
        /\ formatTable (first :: later') totalAvailable
           = formatTable (first :: later) totalAvailable)
  /\ (forall r k v, ~ In k (Object_keys first) ->
                    agree_on (Object_keys first) r (with_property r k v)).
Proof.
  split; [apply own_keys_order_plain|].
  split; [apply formatCsv_unfold|]. split.
  - pose proof (scan_rows_names (initial_columns (Object_keys first)) (first :: later)) as Hn.
    pose proof (scan_rows_cells (initial_columns (Object_keys first)) (first :: later)) as Hc.
    rewrite formatTable_unfold. cbv zeta.
    destruct (scan_rows (initial_columns (Object_keys first)) (first :: later))
      as [columns cellGrid].
    simpl fst in *. simpl snd in *. rewrite initial_columns_names in Hn, Hc.
    exists columns. split; [exact Hn|].
    unfold table_header, table_separator, table_body.
    rewrite Hc, List.map_map, <- Hn.
    do 4 f_equal. apply List.map_ext. intros r.
    rewrite pad_cells_by_name. reflexivity.
  - split.
    + intros later' H. split; [apply formatCsv_ext | apply formatTable_ext]; exact H.
    + intros r k v Hk. apply agree_on_with_property. exact Hk.
Qed.

Lemma columns_come_from_first_row_witness :
  formatCsv ([(str "id", VPrim (str "1"))]
             :: [with_property [(str "id", VPrim (str "2"))] (str "extra") (VPrim (str "zz"))])
  = formatCsv ([(str "id", VPrim (str "1"))] :: [[(str "id", VPrim (str "2"))]])
  /\ formatCsv ([(str "id", VPrim (str "1"))] :: [[(str "id", VPrim (str "2"))]])
     = Ok (str "id" ++ [10] ++ str "1" ++ [10] ++ str "2").
Proof.
  pose proof (columns_come_from_first_row
                [(str "id", VPrim (str "1"))] [[(str "id", VPrim (str "2"))]] None)
    as (_ & _ & _ & Hsame & Hextra).
  assert (Hk : ~ In (str "extra") (Object_keys [(str "id", VPrim (str "1"))])).
  { vm_compute. intros [H|H]; [discriminate H | exact H]. }
  split; [|vm_compute; reflexivity].
  apply (Hsame [with_property [(str "id", VPrim (str "2"))] (str "extra") (VPrim (str "zz"))]).
  constructor; [|constructor].
  apply (Hextra [(str "id", VPrim (str "2"))] (str "extra") (VPrim (str "zz")) Hk).
Defined.

(** C10 as stated fails on a first row created with the keys [b], [2]
    and [1], in that order: the columns are [1], [2], [b], the order of
    [Object.keys], not the insertion order. *)
Lemma integer_like_keys_come_first :
  List.map fst [(str "b", VPrim (str "5")); (str "2", VPrim (str "6")); (str "1", VPrim (str "7"))]
  = [str "b"; str "2"; str "1"]
  /\ Object_keys [(str "b", VPrim (str "5")); (str "2", VPrim (str "6")); (str "1", VPrim (str "7"))]
     = [str "1"; str "2"; str "b"]
  /\ formatCsv [[(str "b", VPrim (str "5")); (str "2", VPrim (str "6")); (str "1", VPrim (str "7"))]]
     = Ok (str "1,2,b" ++ [10] ++ str "7,6,5")
  /\ formatCsv [[(str "b", VPrim (str "5")); (str "2", VPrim (str "6")); (str "1", VPrim (str "7"))]]
     <> Ok (str "b,2,1" ++ [10] ++ str "5,6,7")
  /\ formatTable [[(str "b", VPrim (str "5")); (str "2", VPrim (str "6")); (str "1", VPrim (str "7"))]]
       None
     = Ok (str "1 | 2 | b" ++ [10; 9472; 9472; 9532; 9472; 9472; 9472; 9532; 9472; 9472; 10]
           ++ str "7 | 6 | 5" ++ [10; 10] ++ str "(1 row)").
Proof. repeat split; try (vm_compute; reflexivity). vm_compute. discriminate. Qed.

(** A key the row does not have reads as a member of
    [Object.prototype] when it names one: the cell of a later row under
    a column [constructor] is the text of the function [Object], not
    NULL. *)
Example missing_key_reads_inherited_member :
  formatCsv [[(str "constructor", VPrim (str "1"))]; [(str "x", VPrim (str "2"))]]
  = Ok (str "constructor" ++ [10] ++ str "1" ++ [10] ++ str "function Object() { [native code] }")
  /\ formatCsv [[(str "id", VPrim (str "1"))]; [(str "x", VPrim (str "2"))]]
     = Ok (str "id" ++ [10] ++ str "1" ++ [10] ++ str "NULL").
Proof. split; vm_compute; reflexivity. Qed.

(** A table of two rows; the second row's key [extra] shows nowhere. *)
Example table_of_two_rows :
  formatCsv [[(str "id", VPrim (str "1")); (str "name", VPrim (str "al,ice"))];
             [(str "id", VPrim (str "2")); (str "extra", VPrim (str "zz")); (str "name", VNull)]]
  = Ok (str "id,name" ++ [10; 49; 44; 34] ++ str "al,ice" ++ [34; 10] ++ str "2,NULL").
Proof. vm_compute. reflexivity. Qed.

End Formatter.

(** ** Configuration and the default connection (config.ts, index.ts) *)

Section DefaultConnection.

Import Config Gateway Fixtures.

Lemma resolveConfig_maxRows_cap (raw : option RawConfig) :
  (maxRows (resolveConfig raw) <= 10000)%Z.
Proof. destruct raw as [raw|]; simpl; lia. Qed.

(** With no [defaultConnection] in the raw configuration,
    [resolveConfig] takes the first connection for the default. *)
Lemma resolveConfig_default_is_first (raw : RawConfig) (k : jstring)
      (c : ConnectionConfig) (others : list (jstring * ConnectionConfig)) :
  raw_defaultConnection raw = None ->
  raw_connections raw = Some ((k, c) :: others) ->
  defaultConnection (resolveConfig (Some raw)) = k.
Proof. intros Hd Hc. simpl. rewrite Hd, Hc. reflexivity. Qed.

(** [resolveConnectionName] on its own: without a name in the request
    and with an empty default in [cfg], the only connection is taken,
    and two or more connections are an error that lists them. *)
Lemma resolveConnectionName_without_default (cfg : DbQueryConfig) :
  defaultConnection cfg = [] ->
  (forall k c, connections cfg = [(k, c)] -> resolveConnectionName cfg None = Ok k)
  /\ (forall e1 e2 rest, connections cfg = e1 :: e2 :: rest ->
      resolveConnectionName cfg None
      = Throw (str "Multiple connections available ("
               ++ join (str ", ") (keys (connections cfg))
               ++ str "). Specify which one to use.")).
Proof.
  intros Hd. unfold resolveConnectionName. rewrite Hd. split.
  - intros k c ->. reflexivity.
  - intros [k1 c1] [k2 c2] rest ->. reflexivity.
Qed.

Lemma omitted_default_resolves_to_first (raw : RawConfig) (c0 : char) (k : jstring)
      (c : ConnectionConfig) (others : list (jstring * ConnectionConfig)) :
  raw_defaultConnection raw = None ->
  raw_connections raw = Some ((c0 :: k, c) :: others) ->
  resolveConnectionName (resolveConfig (Some raw)) None = Ok (c0 :: k).
Proof.
  intros Hd Hc. unfold resolveConnectionName.
  rewrite (resolveConfig_default_is_first raw (c0 :: k) c others Hd Hc). reflexivity.
Qed.

(** C6, where the code parts from it. The configuration names two
    connections and no default; a request without a connection name is
    resolved to the first of them, [a], and no ambiguity is reported. *)
Theorem omitted_default_takes_first_of_two :
  raw_defaultConnection two_connections = None
  /\ keys (connections (resolveConfig (Some two_connections))) = [str "a"; str "b"]
  /\ defaultConnection (resolveConfig (Some two_connections)) = str "a"
  /\ resolveConnectionName (resolveConfig (Some two_connections)) None = Ok (str "a").
Proof. repeat split. Qed.

(** The part of C6 about a single connection holds end to end. *)
Lemma sole_connection_is_used (raw : RawConfig) (c0 : char) (k : jstring)
      (c : ConnectionConfig) :
  raw_defaultConnection raw = None ->
  raw_connections raw = Some [(c0 :: k, c)] ->
  resolveConnectionName (resolveConfig (Some raw)) None = Ok (c0 :: k).
Proof. intros Hd Hc. apply (omitted_default_resolves_to_first raw c0 k c [] Hd Hc). Qed.

End DefaultConnection.

(** ** Row capping and truncation in the drivers *)

Section RowCap.

Import Format Config Drivers Gateway Fixtures.

Variable toUpperCase : jstring -> jstring.

Lemma slice0_length {A} (l : list A) (n : Z) :
  (0 <= n)%Z -> (Z.of_nat (length (slice0 l n)) <= n)%Z.
Proof.
  intros Hn. unfold slice0. destruct (Z.ltb_spec n 0); [lia|].
  rewrite length_firstn. lia.
Qed.

Lemma slice0_length_min {A} (l : list A) (n : Z) :
  (0 <= n)%Z -> length (slice0 l n) = Nat.min (Z.to_nat n) (length l).
Proof.
  intros Hn. unfold slice0. destruct (Z.ltb_spec n 0); [lia|]. apply length_firstn.
Qed.

(** With a limit that is not negative, no driver hands back more rows
    than the limit. *)
Lemma query_rows_within_limit (d : Driver) (sql : jstring) (limit timeoutMs : Z)
      (r : QueryResult) :
  (0 <= limit)%Z ->
  query toUpperCase d sql limit timeoutMs = Ok r ->
  (Z.of_nat (length (rows r)) <= limit)%Z.
Proof.
  intros Hl. destruct d as [db|pool|pool]; simpl.
  - unfold sqlite_query. destruct db as [db|]; [|discriminate].
    destruct (10000 <? Z.of_nat (length sql))%Z; [discriminate|].
    destruct (sqlite_reads toUpperCase sql).
    + destruct (sqlite_all db _) as [fetched|e]; [|discriminate]. simpl.
      intros H. injection H as <-. simpl. apply slice0_length. exact Hl.
    + destruct (sqlite_run db _) as [changes|e]; [|discriminate]. simpl.
      intros H. injection H as <-. simpl. exact Hl.
  - unfold mysql_query. destruct pool as [pool|]; [|discriminate].
    destruct (pool _ _) as [[fetched|affected]|e]; simpl; [| |discriminate];
      intros H; injection H as <-; simpl; [apply slice0_length|]; exact Hl.
  - unfold postgres_query. destruct pool as [pool|]; [|discriminate].
    destruct (pool _ _) as [reply|e]; [|discriminate]. simpl.
    destruct (pg_rows reply) as [fetched|]; intros H; injection H as <-; simpl;
      [apply slice0_length|]; exact Hl.
Qed.

(** The MySQL driver never fills in [totalAvailable]. *)
Lemma mysql_total_never_reported (pool : option MysqlPool) (sql : jstring)
      (limit timeoutMs : Z) (r : QueryResult) :
  mysql_query toUpperCase pool sql limit timeoutMs = Ok r -> totalAvailable r = None.
Proof.
  unfold mysql_query. destruct pool as [pool|]; [|discriminate].
  destruct (pool _ _) as [[fetched|affected]|e]; simpl; [| |discriminate];
    intros H; injection H as <-; reflexivity.
Qed.

(** The SQLite driver asks for one row more than the limit and reports
    it: whenever the statement has more rows than the driver hands
    back, [totalAvailable] is present and larger than the number of
    rows handed back. [source] is what the statement selects; the
    database returns it whole, or its first [limit + 1] rows when the
    driver appended its LIMIT. *)
Lemma sqlite_flags_truncation (db : SqliteDb) (sql : jstring) (limit timeoutMs : Z)
      (source : list row) (r : QueryResult) :
  (0 <= limit)%Z ->
  sqlite_reads toUpperCase sql = true ->
  sqlite_all db (sqlite_wrappedSql toUpperCase sql limit)
  = Ok (if sqlite_wraps toUpperCase sql
        then firstn (Z.to_nat (limit + 1)) source else source) ->
  sqlite_query toUpperCase (Some db) sql limit timeoutMs = Ok r ->
  (length (rows r) < length source)%nat ->
  exists total, totalAvailable r = Some total
                /\ (Z.of_nat (length (rows r)) < total)%Z.
Proof.
  intros Hl Hread Hall. unfold sqlite_query.
  destruct (10000 <? Z.of_nat (length sql))%Z; [discriminate|].
  rewrite Hread, Hall. simpl.
  set (fetched := if sqlite_wraps toUpperCase sql
                  then firstn (Z.to_nat (limit + 1)) source else source).
  intros H. injection H as <-. simpl. intros Hlt.
  rewrite slice0_length_min in Hlt |- * by exact Hl.
  assert (Hf : (limit < Z.of_nat (length fetched))%Z).
  { subst fetched. destruct (sqlite_wraps toUpperCase sql).
    - rewrite length_firstn. rewrite length_firstn in Hlt. lia.
    - lia. }
  destruct (Z.ltb_spec limit (Z.of_nat (length fetched))); [|lia].
  exists (Z.of_nat (length fetched)). split; [reflexivity | lia].
Qed.

End RowCap.

Section RowCapClaims.

Import Format Config Drivers Gateway Fixtures.

Lemma run_query_rows_within_limit (world : World) (cfg : DbQueryConfig)
      (toUpperCase : jstring -> jstring) (params : QueryParams)
      (st st' : State) (r : QueryResult) :
  (0 <= effective_limit cfg (p_limit params))%Z ->
  run_query world cfg toUpperCase params st = (Ok (Answered r), st') ->
  (Z.of_nat (length (rows r)) <= nullish (p_limit params) 100)%Z
  /\ (Z.of_nat (length (rows r)) <= maxRows cfg)%Z.
Proof.
  intros Hl. unfold run_query, mbind, M_bind, lift, mret, M_ret.
  destruct (resolveConnectionName cfg (p_connection params)) as [connName|e]; [|discriminate].
  destruct (negb (Safety.allowed _)); [discriminate|].
  destruct (getDriver world cfg connName st) as [[d|e] st1]; [|discriminate].
  destruct (query toUpperCase (inst_driver d) (p_query params) _ _) as [r'|e] eqn:Hq;
    [|discriminate].
  intros H. injection H as <- <-.
  apply query_rows_within_limit in Hq; [|exact Hl].
  unfold effective_limit in *. lia.
Qed.

(** C4, where the code parts from it. [maxRows] is 2 and the request
    asks for the limit -1: the effective limit is -1, the SQLite driver
    cuts the last row off the four it fetched, and three rows come
    back, more than the cap. *)
Theorem negative_limit_exceeds_cap :
  maxRows capped_config = 2%Z
  /\ effective_limit capped_config (p_limit negative_limit_request) = (-1)%Z
  /\ answer_rows (fst (run_query (world_of four_rows) capped_config toUpperCase_ascii
                                 negative_limit_request initial_state))
     = Some [id_row 1; id_row 2; id_row 3].
Proof. repeat split; vm_compute; reflexivity. Qed.

(** What [execute] replies to that request. *)
Example negative_limit_reply :
  fst (execute (world_of four_rows) capped_config toUpperCase_ascii no_json
               negative_limit_request initial_state)
  = str "id" ++ [10; 9472; 9472; 10] ++ str "1 " ++ [10] ++ str "2 " ++ [10]
    ++ str "3 " ++ [10; 10] ++ str "(showing 3 of 4 rows)".
Proof. vm_compute. reflexivity. Qed.

(** C5, where the code parts from it. The statement selects three rows
    and the limit is 2. The MySQL driver hands back two rows without
    [totalAvailable], and the table says "(2 rows)"; the SQLite driver,
    on the same statement, reports 3. *)
Theorem mysql_truncation_unreported :
  mysql_query toUpperCase_ascii (Some (mysql_pool three_rows)) (str "SELECT * FROM t") 2 30000
  = Ok {| rows := [id_row 1; id_row 2]; rowCount := 2; totalAvailable := None |}
  /\ formatTable [id_row 1; id_row 2] None
     = Ok (str "id" ++ [10; 9472; 9472; 10] ++ str "1 " ++ [10] ++ str "2 " ++ [10; 10]
           ++ str "(2 rows)")
  /\ sqlite_query toUpperCase_ascii (Some (sqlite_db three_rows)) (str "SELECT * FROM t") 2 30000
     = Ok {| rows := [id_row 1; id_row 2]; rowCount := 2; totalAvailable := Some 3%Z |}.
Proof. repeat split; vm_compute; reflexivity. Qed.

(** The PostgreSQL driver reports the number of rows it fetched under
    its own LIMIT as the total. *)
Example postgres_total_is_fetched_count :
  postgres_query toUpperCase_ascii (Some (postgres_pool three_rows))
                 (str "SELECT * FROM t") 2 30000
  = Ok {| rows := [id_row 1; id_row 2]; rowCount := 2; totalAvailable := Some 2%Z |}.
Proof. vm_compute. reflexivity. Qed.

Lemma sqlite_flags_truncation_example :
  exists total,
    totalAvailable {| rows := [id_row 1; id_row 2]; rowCount := 2; totalAvailable := Some 3%Z |}
    = Some total /\ (2 < total)%Z.
Proof.
  assert (H : sqlite_query toUpperCase_ascii (Some (sqlite_db three_rows))
                (str "SELECT * FROM t") 2 30000
              = Ok {| rows := [id_row 1; id_row 2]; rowCount := 2;
                      totalAvailable := Some 3%Z |}) by (vm_compute; reflexivity).
  apply (sqlite_flags_truncation toUpperCase_ascii (sqlite_db three_rows)
           (str "SELECT * FROM t") 2 30000 three_rows _ ltac:(lia)
           ltac:(vm_compute; reflexivity) ltac:(vm_compute; reflexivity) H).
  vm_compute. lia.
Qed.

End RowCapClaims.

(** ** The connection registry (index.ts) *)

Section Registry.

Import Config Drivers Gateway Fixtures.

Variable world : World.
Variable cfg : DbQueryConfig.

Lemma construct_cases (connCfg : ConnectionConfig) (d : Driver) (st : State) :
  (exists e, construct world connCfg d st = (Throw e, st))
  \/ construct world connCfg d st
     = (Ok {| inst_id := next_id st; inst_config := connCfg; inst_driver := d |},
        {| drivers := drivers st; next_id := S (next_id st); connects := connects st |}).
Proof.
  unfold construct. destruct (constructor_error world connCfg) as [e|].
  - left. exists e. reflexivity.
  - right. reflexivity.
Qed.

(** [createDriver] leaves the registry alone; when it returns, the
    object is new and not connected. *)
Lemma createDriver_cases (connCfg : ConnectionConfig) (st : State) :
  (exists e, createDriver world connCfg st = (Throw e, st))
  \/ exists d, createDriver world connCfg st
               = (Ok d, {| drivers := drivers st; next_id := S (next_id st);
                           connects := connects st |})
               /\ inst_id d = next_id st.
Proof.
  unfold createDriver.
  destruct (driver connCfg) as [| | |name];
    try (match goal with
         | |- context [construct world ?c ?d st] =>
             destruct (construct_cases c d st) as [[e He]|He]; rewrite He;
             [left; exists e; reflexivity | right; eexists; split; reflexivity]
         end).
  left. eexists. reflexivity.
Qed.

(** [connect] counts one more attempt and leaves the registry alone;
    when it returns, the same object holds a handle. *)
Lemma connect_cases (d : Instance) (st : State) :
  let st' := {| drivers := drivers st; next_id := next_id st;
                connects := S (connects st) |} in
  (exists e, connect world d st = (Throw e, st'))
  \/ exists d', connect world d st = (Ok d', st')
                /\ inst_id d' = inst_id d /\ is_connected d' = true.
Proof.
  unfold connect. destruct (inst_driver d) as [db|pool|pool].
  - destruct (open_sqlite world _ _) as [h|e];
      [right; eexists; repeat split | left; exists e; reflexivity].
  - destruct (open_mysql world _ _) as [h|e];
      [right; eexists; repeat split | left; exists e; reflexivity].
  - destruct (open_postgres world _ _) as [h|e];
      [right; eexists; repeat split | left; exists e; reflexivity].
Qed.

(** A call that finds no cached driver and returns one has built and
    connected a new object and stored it. *)
Lemma getDriver_fresh (connectionName : jstring) (st st' : State) (d : Instance) :
  drivers st !! connectionName = None ->
  getDriver world cfg connectionName st = (Ok d, st') ->
  inst_id d = next_id st /\ is_connected d = true
  /\ st' = {| drivers := <[connectionName := d]> (drivers st);
              next_id := S (next_id st); connects := S (connects st) |}.
Proof.
  intros Hnone. unfold getDriver. rewrite Hnone.
  destruct (lookup_key (connections cfg) connectionName) as [connCfg|]; [|discriminate].
  unfold mbind, M_bind, mret, M_ret, drivers_set.
  destruct (createDriver_cases connCfg st) as [[e He]|[d0 [He Hid]]]; rewrite He;
    [discriminate|].
  match goal with
  | |- context [connect world d0 ?s] =>
      destruct (connect_cases d0 s) as [[e Hc]|[d1 [Hc [Hid1 Hconn]]]]; rewrite Hc
  end; [discriminate|].
  simpl. intros H. injection H as <- <-. repeat split; [congruence | exact Hconn].
Qed.


(** A cached driver is returned as it is, and nothing changes. *)
Lemma getDriver_cached (connectionName : jstring) (st : State) (d : Instance) :
  drivers st !! connectionName = Some d ->
  getDriver world cfg connectionName st = (Ok d, st).
Proof. intros H. unfold getDriver. rewrite H. reflexivity. Qed.

(** A call that returns leaves its driver in the registry. *)
Lemma getDriver_returns_cached (connectionName : jstring) (st st' : State) (d : Instance) :
  getDriver world cfg connectionName st = (Ok d, st') ->
  drivers st' !! connectionName = Some d
  /\ (next_id st' <= S (next_id st))%nat /\ (connects st' <= S (connects st))%nat.
Proof.
  intros H. destruct (drivers st !! connectionName) as [existing|] eqn:Hex.
  - rewrite (getDriver_cached _ _ _ Hex) in H. injection H as <- <-.
    split; [exact Hex | lia].
  - destruct (getDriver_fresh _ _ _ _ Hex H) as (_ & _ & ->). simpl.
    split; [apply lookup_insert_eq | lia].
Qed.

(** A caller that runs its three pieces of code without another caller
    in between does what [getDriver] does. *)
Lemma steps_getDriver (connectionName : jstring) (st : State) :
  steps world cfg 3 (Called connectionName) st
  = (Returned (fst (getDriver world cfg connectionName st)),
     snd (getDriver world cfg connectionName st)).
Proof.
  unfold getDriver. cbn [steps step].
  destruct (drivers st !! connectionName) as [existing|]; [reflexivity|].
  destruct (lookup_key (connections cfg) connectionName) as [connCfg|]; [|reflexivity].
  unfold mbind, M_bind, mret, M_ret.
  destruct (createDriver world connCfg st) as [[d|e] st1]; cbn [steps step]; [|reflexivity].
  destruct (connect world d st1) as [[d'|e] st2]; cbn [steps step]; reflexivity.
Qed.

Lemma run_first_caller (t0 t1 : Task) (st : State) :
  run_schedule world cfg [0; 0; 0]%nat {| tasks := [t0; t1]; shared := st |}
  = {| tasks := [fst (steps world cfg 3 t0 st); t1];
       shared := snd (steps world cfg 3 t0 st) |}.
Proof.
  unfold run_schedule, run_task. simpl.
  destruct (step world cfg t0 st) as [ta sa]. simpl.
  destruct (step world cfg ta sa) as [tb sb]. simpl.
  destruct (step world cfg tb sb) as [tc sc]. reflexivity.
Qed.

Lemma run_second_caller (t0 t1 : Task) (st : State) :
  run_schedule world cfg [1; 1; 1]%nat {| tasks := [t0; t1]; shared := st |}
  = {| tasks := [t0; fst (steps world cfg 3 t1 st)];
       shared := snd (steps world cfg 3 t1 st) |}.
Proof.
  unfold run_schedule, run_task. simpl.
  destruct (step world cfg t1 st) as [ta sa]. simpl.
  destruct (step world cfg ta sa) as [tb sb]. simpl.
  destruct (step world cfg tb sb) as [tc sc]. reflexivity.
Qed.

Lemma run_schedule_app (s1 s2 : list nat) (sys : System) :
  run_schedule world cfg (s1 ++ s2) sys
  = run_schedule world cfg s2 (run_schedule world cfg s1 sys).
Proof. unfold run_schedule. apply fold_left_app. Qed.

(** A piece of code that ends a call in a throw writes nothing to the
    registry; the registry changes only where a call stores its
    connected driver and returns it. *)
Lemma step_registry (t : Task) (st : State) :
  drivers (snd (step world cfg t st)) = drivers st
  \/ exists connectionName d,
       t = AwaitingConnect connectionName (Ok d)
       /\ fst (step world cfg t st) = Returned (Ok d)
       /\ drivers (snd (step world cfg t st)) = <[connectionName := d]> (drivers st).
Proof.
  destruct t as [name|name [d|e]|name [d|e]|r]; simpl.
  - left. destruct (drivers st !! name); [reflexivity|].
    destruct (lookup_key (connections cfg) name) as [connCfg|]; [|reflexivity].
    destruct (createDriver_cases connCfg st) as [[e He]|[d [He _]]]; rewrite He; reflexivity.
  - left. destruct (connect_cases d st) as [[e He]|[d' [He _]]]; rewrite He; reflexivity.
  - left. reflexivity.
  - right. exists name, d. repeat split.
  - left. reflexivity.
  - left. reflexivity.
Qed.


(** C8, as amended. Of two callers for one name that do not overlap
    (the first runs to its return before the second starts), the second
    gets the driver the first got, and at most one object was built and
    at most one connection attempt made for the two. *)
Theorem sequential_first_use_shares_driver (connectionName : jstring) (st : State) :
  exists r0 r1,
    tasks (run_schedule world cfg [0; 0; 0; 1; 1; 1]%nat (two_callers connectionName st))
    = [Returned r0; Returned r1]
    /\ forall d, r0 = Ok d ->
         r1 = Ok d
         /\ (next_id (shared (run_schedule world cfg [0; 0; 0; 1; 1; 1]%nat
                                (two_callers connectionName st)))
             <= S (next_id st))%nat
         /\ (connects (shared (run_schedule world cfg [0; 0; 0; 1; 1; 1]%nat
                                 (two_callers connectionName st)))
             <= S (connects st))%nat.
Proof.
  change [0; 0; 0; 1; 1; 1]%nat with ([0; 0; 0] ++ [1; 1; 1])%nat.
  rewrite run_schedule_app. unfold two_callers.
  rewrite run_first_caller, steps_getDriver. simpl fst. simpl snd.
  rewrite run_second_caller, steps_getDriver. simpl.
  destruct (getDriver world cfg connectionName st) as [r0 st1] eqn:H0. simpl.
  eexists _, _. split; [reflexivity|].
  intros d ->. destruct (getDriver_returns_cached _ _ _ _ H0) as (Hc & Hn & Hk).
  rewrite (getDriver_cached _ _ _ Hc). simpl. auto.
Qed.

End Registry.

Section RegistryExamples.

Import Config Drivers Gateway Fixtures.


(** After the refused attempt the next call connects: a second object,
    cached under the name. *)
Example retry_after_failure_connects :
  option_map inst_id
    (drivers (snd (getDriver (flaky_world three_rows) capped_config (str "a")
                     {| drivers := ∅; next_id := 1; connects := 1 |})) !! str "a")
  = Some 1%nat.
Proof. vm_compute. reflexivity. Qed.

(** C8 as stated fails: two callers for the name [a] whose pieces of
    code alternate both find the registry empty, each builds and
    connects its own driver object (identities 0 and 1), and each gets
    its own back. *)
Lemma overlapping_first_use_builds_two_drivers :
  List.map returned_id
    (tasks (run_schedule (world_of three_rows) capped_config [0; 1; 0; 1; 0; 1]%nat
              (two_callers (str "a") initial_state)))
  = [Some 0%nat; Some 1%nat]
  /\ next_id (shared (run_schedule (world_of three_rows) capped_config [0; 1; 0; 1; 0; 1]%nat
                        (two_callers (str "a") initial_state))) = 2%nat
  /\ connects (shared (run_schedule (world_of three_rows) capped_config [0; 1; 0; 1; 0; 1]%nat
                         (two_callers (str "a") initial_state))) = 2%nat
  /\ option_map inst_id
       (drivers (shared (run_schedule (world_of three_rows) capped_config
                           [0; 1; 0; 1; 0; 1]%nat
                           (two_callers (str "a") initial_state))) !! str "a")
     = Some 1%nat.
Proof. repeat split; vm_compute; reflexivity. Qed.

End RegistryExamples.

(* ================================================================== *)
(** * Part III: further properties of the code *)

(** ** The scanning classifier (safety.ts) *)

Section ClassifierProperties.

Import Safety SqlText.

(** X1. The test of one keyword, [new RegExp(`\\b${keyword}\\b`, "i")]
    on the sanitized text, succeeds exactly when the keyword stands in
    the text as a whole word in some letter case: an occurrence with no
    letter, digit or underscore right before it and right after it. *)
Theorem keyword_test_finds_whole_words (kw s : jstring) :
  In kw MUTATION_KEYWORDS ->
  (test_keyword kw s = true <-> occurs_as_word kw s).
Proof.
  intros H. destruct (mutation_keyword_shape kw H) as [Hne Hw].
  apply test_keyword_spec; assumption.
Qed.

Lemma keyword_test_finds_whole_words_witness :
  In (str "DROP") MUTATION_KEYWORDS
  /\ (test_keyword (str "DROP") (str "select drop_x, Drop y") = true
      <-> occurs_as_word (str "DROP") (str "select drop_x, Drop y")).
Proof.
  assert (H : In (str "DROP") MUTATION_KEYWORDS) by (vm_compute; tauto).
  split; [exact H|].
  exact (keyword_test_finds_whole_words (str "DROP") (str "select drop_x, Drop y") H).
Defined.

(** X2. With mutations off, [validateQuery] allows a query exactly when
    no semicolon is left once the trailing terminator is removed and no
    mutation keyword stands as a whole word in the text that remains
    after literals and comments are removed. *)
Theorem validateQuery_allows_exactly_clean_text (query : jstring) :
  allowed (validateQuery query false) = true <->
  remaining_separator query = false
  /\ forall kw, In kw MUTATION_KEYWORDS -> ~ occurs_as_word kw (sanitized_text query).
Proof. exact (validateQuery_allowed_iff query). Qed.

(** X3. The replacement of [/;\s*$/] by the empty text, which
    [validateQuery] and the three drivers apply: a semicolon followed
    only by white space up to the end of the text is removed together
    with that white space, and the text before it is kept whole, other
    semicolons included; a text that does not end that way is
    unchanged. *)
Theorem trailing_terminator_removed (s : jstring) :
  (forall pre ws, s = pre ++ 59 :: ws -> forallb is_space ws = true ->
                  replace_first false re_trailing_semicolon s = pre)
  /\ ((forall pre ws, s = pre ++ 59 :: ws -> forallb is_space ws = false) ->
      replace_first false re_trailing_semicolon s = s).
Proof.
  split.
  - intros pre ws -> Hws. rewrite replace_trailing_direct.
    apply remove_trailing_terminator. exact Hws.
  - intros H. rewrite replace_trailing_direct. apply remove_trailing_nothing. exact H.
Qed.





(** [trim] leaves a text alone that neither begins nor ends with white
    space. *)
Lemma trim_identity (c d : char) (mid : jstring) :
  is_space c = false -> is_space d = false ->
  trim (c :: mid ++ [d]) = c :: mid ++ [d].
Proof.
  intros Hc Hd. unfold trim, trimStart, trimEnd.
  cbn [drop_while]. rewrite Hc.
  change (c :: mid ++ [d]) with ((c :: mid) ++ [d]).
  assert (E : rev ((c :: mid) ++ [d]) = d :: rev (c :: mid))
    by (rewrite rev_app_distr; reflexivity).
  rewrite E. cbn [drop_while]. rewrite Hd. rewrite <- E. apply rev_involutive.
Qed.

(** X6. Removing a comment joins what stands before it to what stands
    after it, so a mutation keyword followed at once by a block comment
    and then by a letter is no longer a whole word when the keywords
    are searched: [validateQuery] allows such a statement with
    mutations off, for every keyword of the list and every comment
    content without an asterisk, a quote or a semicolon. *)
Theorem keyword_joined_by_comment_is_allowed (kw body : jstring) :
  In kw MUTATION_KEYWORDS ->
  ~ In 42 body -> ~ In 39 body -> ~ In 34 body -> ~ In 59 body ->
  validateQuery (kw ++ 47 :: 42 :: body ++ 42 :: 47 :: str "TABLE t") false
  = allowed_result.
Proof.
  intros Hkw Hstar Hs Hd Hsemi.
  set (query := kw ++ 47 :: 42 :: body ++ 42 :: 47 :: str "TABLE t").
  assert (Hplain : plain kw /\ is_space (nth 0 kw 0) = false /\ ~ In 59 kw /\ kw <> []).
  { simpl in Hkw.
    repeat (destruct Hkw as [<-|Hkw];
            [vm_compute; intuition discriminate|]).
    contradiction. }
  destruct Hplain as (Hplain & Hhead & Hk59 & Hne).
  assert (Htrim : trim query = query).
  { unfold query. destruct kw as [|c kw']; [congruence|]. simpl in Hhead.
    change (str "TABLE t") with (str "TABLE " ++ [116]).
    change ((c :: kw') ++ 47 :: 42 :: body ++ 42 :: 47 :: str "TABLE " ++ [116])
      with (c :: (kw' ++ 47 :: 42 :: body ++ 42 :: 47 :: str "TABLE " ++ [116])).
    replace (kw' ++ 47 :: 42 :: body ++ 42 :: 47 :: str "TABLE " ++ [116])
      with ((kw' ++ 47 :: 42 :: body ++ 42 :: 47 :: str "TABLE ") ++ [116]).
    - apply trim_identity; [exact Hhead | reflexivity].
    - rewrite <- app_assoc. simpl. rewrite <- app_assoc. reflexivity. }
  assert (Hno : ~ In 59 query).
  { unfold query. intros H. apply in_app_or in H as [H|H]; [contradiction|].
    destruct H as [H|[H|H]]; [discriminate | discriminate |].
    apply in_app_or in H as [H|H]; [contradiction|].
    vm_compute in H. intuition discriminate. }
  rewrite validateQuery_cases.
  unfold remaining_separator, sanitized_text. rewrite Htrim.
  rewrite replace_trailing_direct, remove_trailing_nothing.
  2:{ intros pre ws E. exfalso. apply Hno. rewrite E. apply in_or_app. right. left. reflexivity. }
  destruct (includes query (str ";")) eqn:Hinc.
  { apply includes_semicolon in Hinc. contradiction. }
  unfold query. rewrite block_comment_content_ignored;
    [| exact Hplain | vm_compute; intuition discriminate | exact Hstar | exact Hs | exact Hd].
  simpl in Hkw.
  repeat (destruct Hkw as [<-|Hkw]; [vm_compute; reflexivity|]).
  contradiction.
Qed.

Lemma keyword_joined_by_comment_is_allowed_witness :
  validateQuery (str "DROP" ++ 47 :: 42 :: [] ++ 42 :: 47 :: str "TABLE t") false
  = allowed_result.
Proof.
  apply (keyword_joined_by_comment_is_allowed (str "DROP") []);
    vm_compute; intuition discriminate.
Defined.

End ClassifierProperties.

(** ** The leading-token classifier *)

Section LeadingTokenProperties.

Import Safety SafetyLeading LeadingToken.

Lemma take_drop_while_app (p : char -> bool) (s : jstring) :
  take_while p s ++ drop_while p s = s.
Proof.
  induction s as [|c s IH]; simpl; [reflexivity|].
  destruct (p c); simpl; [rewrite IH|]; reflexivity.
Qed.

(** The trimmed text does not begin with white space. *)
Lemma trim_no_leading_space (query : jstring) :
  drop_while is_space (trim query) = trim query.
Proof.
  unfold trim. set (l := trimStart query).
  assert (Hl : forall c, head l = Some c -> is_space c = false).
  { intros c. apply head_drop_while. }
  assert (Hp : exists ws, l = trimEnd l ++ ws).
  { exists (rev (take_while is_space (rev l))). unfold trimEnd.
    rewrite <- rev_app_distr, take_drop_while_app. symmetry. apply rev_involutive. }
  destruct Hp as [ws Hp]. destruct (trimEnd l) as [|c t] eqn:E; [reflexivity|].
  simpl. rewrite (Hl c); [reflexivity|]. rewrite Hp. reflexivity.
Qed.

(** With the anchor in front, the expression matches at the start of
    the text or nowhere. *)
Lemma test_leading_at_start (kw s : jstring) :
  test_leading kw s = match exec true (re_leading kw) None s with
                      | Some _ => true
                      | None => false
                      end.
Proof.
  unfold test_leading, test.
  assert (Hlater : forall s c, test_from true (re_leading kw) (Some c) s = false).
  { clear s; induction s as [|d s IH]; intros c; simpl.
    - reflexivity.
    - apply IH. }
  destruct s as [|d s]; simpl.
  - destruct (exec true (re_leading kw) None []); reflexivity.
  - destruct (exec true (re_leading kw) None (d :: s)); [reflexivity | apply Hlater].
Qed.

Lemma space_is_no_letter (c p : char) :
  is_space c = true -> in_range 65 90 p = true ->
  (canonicalize c =? canonicalize p) = false.
Proof.
  intros Hc Hp.
  assert (Hrange : c < 48 \/ 122 < c).
  { unfold is_space, in_range in Hc.
    rewrite !orb_true_iff, !andb_true_iff, !N.eqb_eq, !N.leb_le in Hc. lia. }
  unfold in_range in Hp. apply andb_true_iff in Hp as [Hp1 Hp2].
  apply N.leb_le in Hp1, Hp2.
  apply N.eqb_neq. unfold canonicalize, in_range.
  destruct (97 <=? c) eqn:E1, (c <=? 122) eqn:E2, (97 <=? p) eqn:E3, (p <=? 122) eqn:E4;
    simpl; try apply N.leb_le in E1; try apply N.leb_le in E2;
    try apply N.leb_le in E3; try apply N.leb_gt in E1; try apply N.leb_gt in E2;
    try apply N.leb_gt in E3; lia.
Qed.

(** The white space before the keyword: the greedy star takes all of
    it, and no shorter run lets the keyword match. *)
Lemma star_space_then_keyword (p : char) (kw : jstring) (k : Kont)
      (fuel : nat) (prev : option char) (s : jstring) :
  in_range 65 90 p = true ->
  (length s <= fuel)%nat ->
  star_loop true (run true (Cls is_space)) fuel prev s
            (fun prev' s' => run true (re_literal (p :: kw) WordB) prev' s' k)
  = run true (re_literal (p :: kw) WordB) None (drop_while is_space s) k.
Proof.
  intros Hp.
  assert (Hprev : forall prev1 prev2 s,
             run true (re_literal (p :: kw) WordB) prev1 s k
             = run true (re_literal (p :: kw) WordB) prev2 s k).
  { intros prev1 prev2 s0. rewrite !run_literal. destruct s0; reflexivity. }
  revert prev s; induction fuel as [|fuel IH]; intros prev s Hlen.
  - destruct s; [|simpl in Hlen; lia]. apply Hprev.
  - cbn [star_loop]. destruct s as [|d s].
    + cbn [run]. apply Hprev.
    + cbn [run drop_while]. destruct (is_space d) eqn:Hd.
      * assert (Hlt : (length s <? length (d :: s))%nat = true)
          by (apply Nat.ltb_lt; simpl; lia).
        rewrite Hlt. rewrite IH by (simpl in Hlen; lia).
        destruct (run true (re_literal (p :: kw) WordB) None (drop_while is_space s) k)
          as [rest|] eqn:E; [reflexivity|].
        rewrite run_literal. cbn [match_keyword].
        rewrite (space_is_no_letter d p Hd Hp). reflexivity.
      * apply Hprev.
Qed.

Lemma mutation_pattern_head (kw : jstring) :
  In kw MUTATION_PATTERNS -> exists p kw', kw = p :: kw' /\ in_range 65 90 p = true.
Proof.
  unfold MUTATION_PATTERNS, MUTATION_KEYWORDS. simpl. intros H.
  repeat (destruct H as [<-|H]; [eexists _, _; split; reflexivity|]).
  contradiction.
Qed.

Lemma test_leading_direct (kw s : jstring) :
  In kw MUTATION_PATTERNS -> test_leading kw s = leads_with kw s.
Proof.
  intros Hin. destruct (mutation_pattern_head kw Hin) as (p & kw' & -> & Hp).
  rewrite test_leading_at_start. unfold exec, re_leading, leads_with.
  cbn [run]. rewrite (star_space_then_keyword p kw' _ _ None s Hp (le_n _)).
  rewrite run_literal.
  destruct (match_keyword (p :: kw') None (drop_while is_space s)) as [[lastc rest]|];
    [|reflexivity].
  cbn [run]. destruct (word_boundary lastc (head rest)); reflexivity.
Qed.

Lemma leads_with_spec (kw s : jstring) :
  In kw MUTATION_PATTERNS ->
  drop_while is_space s = s ->
  (leads_with kw s = true <-> begins_with_word kw s).
Proof.
  intros Hin Hs. destruct (mutation_keyword_shape kw Hin) as [Hne Hw].
  unfold leads_with, begins_with_word. rewrite Hs. split.
  - destruct (match_keyword kw None s) as [[lastc rest]|] eqn:E; [|discriminate].
    apply match_keyword_spec in E as (w & -> & Hsame & ->). intros Hb.
    exists w, rest. split; [reflexivity|]. split; [exact Hsame|].
    unfold word_boundary in Hb.
    rewrite (final_or_app_word None w) in Hb.
    + destruct (is_word_at (head rest)); [discriminate | reflexivity].
    + intros ->. destruct kw; [congruence | discriminate].
    + apply (same_word_is_word w kw Hsame Hw).
  - intros (w & rest & -> & Hsame & Hafter).
    assert (E : match_keyword kw None (w ++ rest) = Some (final_or None w, rest)).
    { apply match_keyword_spec. exists w. repeat split. exact Hsame. }
    rewrite E. unfold word_boundary. rewrite Hafter.
    rewrite (final_or_app_word None w); [reflexivity | |].
    + intros ->. destruct kw; [congruence | discriminate].
    + apply (same_word_is_word w kw Hsame Hw).
Qed.

(** X7. The classifier of the source with [MUTATION_PATTERNS] looks at
    the leading token only: with mutations off it denies a query
    exactly when the trimmed text begins with one of the keywords, in
    any letter case, followed by the end of the text or by a code unit
    that is no letter, digit or underscore. Whatever stands after that
    token has no part in the verdict. *)
Theorem leading_classifier_reads_first_token
        (toUpperCase : jstring -> jstring) (query : jstring) :
  allowed (SafetyLeading.validateQuery toUpperCase query false) = false
  <-> exists kw, In kw MUTATION_PATTERNS /\ begins_with_word kw (trim query).
Proof.
  unfold SafetyLeading.validateQuery.
  destruct (existsb _ MUTATION_PATTERNS) eqn:E; simpl.
  - split; [|reflexivity]. intros _.
    apply existsb_exists in E as (kw & Hin & Ht). exists kw. split; [exact Hin|].
    rewrite (test_leading_direct kw _ Hin) in Ht.
    apply (leads_with_spec kw _ Hin (trim_no_leading_space query)). exact Ht.
  - split; [discriminate|]. intros (kw & Hin & Hb). exfalso.
    apply (leads_with_spec kw _ Hin (trim_no_leading_space query)) in Hb.
    rewrite <- (test_leading_direct kw _ Hin) in Hb.
    assert (Hex : existsb (fun kw => test_leading kw (trim query)) MUTATION_PATTERNS = true).
    { apply existsb_exists. exists kw. split; assumption. }
    rewrite Hex in E. discriminate.
Qed.

End LeadingTokenProperties.

(** ** The formatter (format.ts) *)

Section FormatterProperties.

Import Format TableShape.

Lemma includes_char (s : jstring) (c : char) :
  includes s [c] = true <-> In c s.
Proof.
  rewrite includes_spec. split.
  - intros [pre [post ->]]. apply in_or_app. right. left. reflexivity.
  - intros H. apply in_split in H as [pre [post ->]]. exists pre, post. reflexivity.
Qed.

Lemma doubled_quotes_injective (a b : jstring) :
  List.flat_map (fun c => if c =? 34 then [34; 34] else [c]) a
  = List.flat_map (fun c => if c =? 34 then [34; 34] else [c]) b ->
  a = b.
Proof.
  revert b; induction a as [|x a IH]; intros [|y b]; simpl.
  - reflexivity.
  - destruct (y =? 34); discriminate.
  - destruct (x =? 34); discriminate.
  - destruct (N.eqb_spec x 34) as [Hx|Hx], (N.eqb_spec y 34) as [Hy|Hy]; simpl; intros H.
    + injection H as H. subst. f_equal. apply IH. exact H.
    + injection H as H1 H2. subst y. contradiction.
    + injection H as H1 H2. subst x. contradiction.
    + injection H as H1 H2. subst. f_equal. apply IH. exact H2.
Qed.

Lemma csvEscape_cancel (a b : jstring) :
  csvEscape a = csvEscape b -> a = b.
Proof.
  unfold csvEscape.
  destruct (includes a [44] || includes a [34] || includes a [10]) eqn:Ea,
           (includes b [44] || includes b [34] || includes b [10]) eqn:Eb.
  - intros H. injection H as H. apply app_inv_tail in H.
    apply doubled_quotes_injective. exact H.
  - intros H. exfalso.
    apply orb_false_iff in Eb as [Eb _]. apply orb_false_iff in Eb as [_ Eb].
    assert (Hin : In 34 b) by (rewrite <- H; left; reflexivity).
    apply includes_char in Hin. apply (eq_true_false_abs _ Hin). assumption.
  - intros H. exfalso.
    apply orb_false_iff in Ea as [Ea _]. apply orb_false_iff in Ea as [_ Ea].
    assert (Hin : In 34 a) by (rewrite H; left; reflexivity).
    apply includes_char in Hin. apply (eq_true_false_abs _ Hin). assumption.
  - intros H. exact H.
Qed.

(** X8. [csvEscape] loses nothing: two different texts never get the
    same CSV field, quoted or not. *)
Theorem csvEscape_injective (a b : jstring) :
  a <> b -> csvEscape a <> csvEscape b.
Proof. intros Hne H. apply Hne. apply csvEscape_cancel. exact H. Qed.

Lemma csvEscape_injective_witness :
  str "a,b" <> 34 :: str "a,b" ++ [34]
  /\ csvEscape (str "a,b") <> csvEscape (34 :: str "a,b" ++ [34]).
Proof.
  assert (Hne : str "a,b" <> 34 :: str "a,b" ++ [34]) by (vm_compute; discriminate).
  split; [exact Hne|].
  exact (csvEscape_injective (str "a,b") (34 :: str "a,b" ++ [34]) Hne).
Defined.

(** *** Column widths *)

Lemma scan_row_columns (columns : list Column) (r : row) :
  fst (scan_row columns r)
  = List.map (fun col => {| name := name col;
                            width := Nat.min (Nat.max (width col) (length (cell r (name col))))
                                             MAX_CELL_WIDTH |}) columns.
Proof.
  induction columns as [|col columns IH]; simpl; [reflexivity|].
  destruct (scan_row columns r) as [rest' cells]. simpl in *. rewrite IH. reflexivity.
Qed.

Lemma scan_rows_columns (columns : list Column) (rows : list row) :
  fst (scan_rows columns rows)
  = List.map (fun col =>
                {| name := name col;
                   width := width_after (width col)
                              (List.map (fun r => length (cell r (name col))) rows) |})
             columns.
Proof.
  revert columns; induction rows as [|r rows IH]; intros columns.
  - simpl. induction columns as [|[n w] columns IHc]; simpl; [reflexivity|].
    rewrite <- IHc. reflexivity.
  - simpl. pose proof (scan_row_columns columns r) as Hr.
    destruct (scan_row columns r) as [columns1 cells]. simpl in Hr.
    specialize (IH columns1).
    destruct (scan_rows columns1 rows) as [columns2 grid]. simpl in *.
    rewrite IH, Hr, List.map_map. reflexivity.
Qed.


Lemma width_after_covers (w0 : nat) (cells : list nat) :
  (w0 <= MAX_CELL_WIDTH)%nat ->
  Forall (fun c => (c <= MAX_CELL_WIDTH)%nat) cells ->
  (w0 <= width_after w0 cells)%nat
  /\ Forall (fun c => (c <= width_after w0 cells)%nat) cells.
Proof.
  revert w0; induction cells as [|c cells IH]; intros w0 Hw Hall.
  - split; [apply le_n | constructor].
  - inversion Hall as [|? ? Hc Hrest]; subst.
    assert (E : Nat.min (Nat.max w0 c) MAX_CELL_WIDTH = Nat.max w0 c)
      by (apply Nat.min_l, Nat.max_lub; assumption).
    destruct (IH (Nat.max w0 c)) as [H1 H2]; [apply Nat.max_lub; assumption | exact Hrest |].
    unfold width_after in *. cbn [fold_left]. rewrite E. split.
    + etransitivity; [apply Nat.le_max_l | exact H1].
    + constructor; [etransitivity; [apply Nat.le_max_r | exact H1] | exact H2].
Qed.

Lemma final_columns_of_keys (first : row) (later : list row) :
  final_columns first later
  = List.map (fun k => {| name := k;
                          width := width_after (length k)
                                     (List.map (fun r => length (cell r k)) (first :: later)) |})
             (Object_keys first).
Proof.
  unfold final_columns. rewrite scan_rows_columns. unfold initial_columns.
  rewrite List.map_map. reflexivity.
Qed.


(** *** Alignment *)

Lemma length_join (sep : jstring) (parts : list jstring) :
  length (join sep parts)
  = (list_sum (List.map (@length char) parts) + length sep * (length parts - 1))%nat.
Proof.
  induction parts as [|p parts IH]; [simpl; lia|].
  destruct parts as [|q parts].
  - simpl. lia.
  - change (join sep (p :: q :: parts)) with (p ++ sep ++ join sep (q :: parts)).
    rewrite !length_app, IH. simpl. lia.
Qed.

Lemma length_padEnd (s : jstring) (w : nat) :
  length (padEnd s w) = Nat.max (length s) w.
Proof. unfold padEnd. rewrite length_app, repeat_length. lia. Qed.

Lemma length_repeat_unit (c : char) (n : nat) : length (repeat_str [c] n) = n.
Proof.
  unfold repeat_str. induction n as [|n IH]; simpl; [reflexivity|].
  rewrite IH. reflexivity.
Qed.

Lemma padded_line_width (sep : jstring) (columns : list Column) (texts : list jstring) :
  length sep = 3%nat ->
  Forall2 (fun t col => (length t <= width col)%nat) texts columns ->
  length (join sep (pad_cells texts columns)) = line_width columns.
Proof.
  intros Hsep Hfit. rewrite length_join, Hsep. unfold line_width.
  assert (H : list_sum (List.map (@length char) (pad_cells texts columns))
              = list_sum (List.map width columns)
              /\ length (pad_cells texts columns) = length columns).
  { induction Hfit as [|t col texts columns Ht Hfit [IH1 IH2]]; [split; reflexivity|].
    destruct texts; simpl in *; rewrite length_padEnd; split; lia. }
  destruct H as [-> ->]. reflexivity.
Qed.

Lemma header_as_padded_cells (columns : list Column) :
  List.map (fun c => padEnd (name c) (width c)) columns
  = pad_cells (List.map name columns) columns.
Proof.
  induction columns as [|col columns IH]; simpl; [reflexivity|].
  rewrite IH. reflexivity.
Qed.

Lemma Forall2_map_same {A B} (P : B -> A -> Prop) (f : A -> B) (l : list A) :
  (forall a, In a l -> P (f a) a) -> Forall2 P (List.map f l) l.
Proof.
  induction l as [|a l IH]; intros H; simpl; constructor.
  - apply H. left. reflexivity.
  - apply IH. intros b Hb. apply H. right. exact Hb.
Qed.

(** X10. When every key of the first row and every cell under those
    keys is at most 200 code units long, the table is aligned: the
    header, the separator and every body line have the same length,
    the sum of the column widths plus three for each gap. *)
Theorem table_lines_aligned (first : row) (later : list row) :
  (forall k, In k (Object_keys first) -> (length k <= MAX_CELL_WIDTH)%nat) ->
  (forall r k, In r (first :: later) -> In k (Object_keys first) ->
               (length (cell r k) <= MAX_CELL_WIDTH)%nat) ->
  Forall (fun line => length line = line_width (final_columns first later))
         (table_lines first later).
Proof.
  intros Hkeys Hcells.
  assert (Hcover : forall k, In k (Object_keys first) ->
             let w := width_after (length k)
                        (List.map (fun r => length (cell r k)) (first :: later)) in
             (length k <= w)%nat
             /\ forall r, In r (first :: later) -> (length (cell r k) <= w)%nat).
  { intros k Hk. cbv zeta.
    destruct (width_after_covers (length k)
                (List.map (fun r => length (cell r k)) (first :: later)))
      as [H1 H2].
    - apply Hkeys. exact Hk.
    - apply Forall_forall. intros c Hc. apply in_map_iff in Hc as (r & <- & Hr).
      apply Hcells; assumption.
    - split; [exact H1|]. intros r Hr. rewrite Forall_forall in H2. apply H2.
      apply in_map_iff. exists r. split; [reflexivity | exact Hr]. }
  assert (Hnames : List.map name (final_columns first later) = Object_keys first).
  { unfold final_columns. rewrite scan_rows_names. apply initial_columns_names. }
  assert (Hcol : forall col, In col (final_columns first later) ->
             In (name col) (Object_keys first)
             /\ (length (name col) <= width col)%nat
             /\ forall r, In r (first :: later) ->
                          (length (cell r (name col)) <= width col)%nat).
  { intros col Hin. rewrite final_columns_of_keys in Hin.
    apply in_map_iff in Hin as (k & <- & Hk). simpl.
    destruct (Hcover k Hk) as [H1 H2]. split; [exact Hk|]. split; [exact H1 | exact H2]. }
  unfold table_lines. apply Forall_cons; [|apply Forall_cons].
  - unfold table_header. rewrite header_as_padded_cells.
    apply padded_line_width; [reflexivity|].
    apply Forall2_map_same. intros col Hin. apply (Hcol col Hin).
  - unfold table_separator. rewrite length_join. unfold line_width.
    rewrite !length_map. f_equal. f_equal.
    rewrite List.map_map. apply List.map_ext. intros col. apply length_repeat_unit.
  - unfold table_body, cell_grid. rewrite scan_rows_cells, initial_columns_names.
    apply Forall_forall. intros line Hline.
    apply in_map_iff in Hline as (cells & <- & Hc).
    apply in_map_iff in Hc as (r & <- & Hr).
    apply padded_line_width; [reflexivity|].
    rewrite <- Hnames, List.map_map.
    apply Forall2_map_same. intros col Hin. apply (Hcol col Hin). exact Hr.
Qed.

Lemma table_lines_aligned_witness :
  Forall (fun line => length line
                      = line_width (final_columns [(str "id", VPrim (str "1")); (str "v", VNull)]
                                                  [[(str "id", VPrim (str "1000"))]]))
         (table_lines [(str "id", VPrim (str "1")); (str "v", VNull)]
                      [[(str "id", VPrim (str "1000"))]]).
Proof.
  apply (table_lines_aligned [(str "id", VPrim (str "1")); (str "v", VNull)]
                             [[(str "id", VPrim (str "1000"))]]).
  - intros k Hk. vm_compute in Hk.
    destruct Hk as [<-|[<-|[]]]; vm_compute; lia.
  - intros r k Hr Hk. vm_compute in Hk. simpl in Hr.
    destruct Hr as [<-|[<-|[]]]; destruct Hk as [<-|[<-|[]]]; vm_compute; lia.
Defined.


End FormatterProperties.

(** ** The tool, the command and the registry (index.ts) *)

Section GatewayProperties.

Import Format Config Drivers Gateway Fixtures Commands RegistryShape.

(** X12. The safety check comes before the connection: when the query
    is not allowed for the connection the request resolves to, the tool
    answers with the denial and the module state is what it was, so no
    driver object is built and no [connect] is made, whatever lies
    outside. *)
Theorem denied_query_opens_no_connection
        (world : World) (cfg : DbQueryConfig) (toUpperCase : jstring -> jstring)
        (params : QueryParams) (connName : jstring) (st : State) :
  resolveConnectionName cfg (p_connection params) = Ok connName ->
  Safety.allowed
    (Safety.validateQuery (p_query params)
       (negb (Safety.isReadOnly (lookup_key (connections cfg) connName ≫= readOnly)
                                (allowMutations cfg)))) = false ->
  exists reason, run_query world cfg toUpperCase params st = (Ok (Denied reason), st).
Proof.
  intros Hname Hdenied. unfold run_query. rewrite Hname.
  unfold mbind at 1. unfold M_bind. unfold lift at 1. cbv beta iota zeta.
  rewrite Hdenied. eexists. reflexivity.
Qed.

Lemma denied_query_opens_no_connection_witness :
  exists reason,
    run_query (world_of three_rows) capped_config toUpperCase_ascii
      {| p_query := str "DROP TABLE t"; p_connection := None;
         p_format := None; p_limit := None |} initial_state
    = (Ok (Denied reason), initial_state).
Proof.
  apply (denied_query_opens_no_connection (world_of three_rows) capped_config
           toUpperCase_ascii
           {| p_query := str "DROP TABLE t"; p_connection := None;
              p_format := None; p_limit := None |} (str "a") initial_state);
    vm_compute; reflexivity.
Defined.

(** X13. The command [/db] is the tool [db_query] with its defaults:
    for arguments that are not blank its reply is the reply of
    [execute] for that query with no connection, format or limit
    given; without arguments, or with blank ones, it is the usage
    line and nothing is run. *)
Theorem db_command_is_db_query_with_defaults
        (world : World) (cfg : DbQueryConfig) (toUpperCase : jstring -> jstring)
        (JSON_stringify_rows : list row -> jstring) (st : State) :
  db_command world cfg toUpperCase JSON_stringify_rows None st = (usage_text, st)
  /\ forall args,
       (trim args = [] ->
        db_command world cfg toUpperCase JSON_stringify_rows (Some args) st = (usage_text, st))
       /\ (trim args <> [] ->
           db_command world cfg toUpperCase JSON_stringify_rows (Some args) st
           = execute world cfg toUpperCase JSON_stringify_rows
               {| p_query := args; p_connection := None; p_format := None; p_limit := None |}
               st).
Proof.
  split; [reflexivity|]. intros args. split.
  - intros H. unfold db_command. rewrite H. reflexivity.
  - intros H. unfold db_command. destruct (trim args) as [|c t]; [congruence|].
    unfold execute, db_command_body, run_query, effective_limit.
    cbn [p_query p_connection p_format p_limit nullish].
    unfold mbind, M_bind, lift, mret, M_ret.
    destruct (resolveConnectionName cfg None) as [connName|e]; [|reflexivity].
    destruct (negb (Safety.allowed _)); [reflexivity|].
    destruct (getDriver world cfg connName st) as [[d|e] st1]; [|reflexivity].
    destruct (query toUpperCase (inst_driver d) args _ _) as [r|e]; [|reflexivity].
    reflexivity.
Qed.

(** *** The registry under any interleaving *)

Lemma step_keeps_connected (world : World) (cfg : DbQueryConfig) (t : Task) (st : State) :
  cached_connected st -> holds_connected t ->
  cached_connected (snd (step world cfg t st))
  /\ holds_connected (fst (step world cfg t st)).
Proof.
  intros Hst Ht. destruct t as [name|name [d|e]|name [d|e]|r]; simpl.
  - destruct (drivers st !! name); [split; [exact Hst | exact I]|].
    destruct (lookup_key (connections cfg) name) as [connCfg|]; [|split; [exact Hst | exact I]].
    destruct (createDriver_cases world connCfg st) as [[e He]|[d [He _]]]; rewrite He;
      split; try exact Hst; exact I.
  - destruct (connect_cases world d st) as [[e He]|[d' [He [_ Hc]]]]; rewrite He;
      split; try exact Hst; try exact I. exact Hc.
  - split; [exact Hst | exact I].
  - split; [|exact I]. unfold cached_connected. simpl.
    apply map_Forall_insert_2; [exact Ht | exact Hst].
  - split; [exact Hst | exact I].
  - split; [exact Hst | exact I].
Qed.

Lemma run_task_keeps_connected (world : World) (cfg : DbQueryConfig) (i : nat) (sys : System) :
  cached_connected (shared sys) -> Forall holds_connected (tasks sys) ->
  cached_connected (shared (run_task world cfg i sys))
  /\ Forall holds_connected (tasks (run_task world cfg i sys)).
Proof.
  intros Hst Hts. unfold run_task.
  destruct (tasks sys !! i) as [t|] eqn:E; [|split; assumption].
  assert (Ht : holds_connected t).
  { apply (Forall_lookup_1 _ _ _ _ Hts E). }
  destruct (step_keeps_connected world cfg t (shared sys) Hst Ht) as [H1 H2].
  destruct (step world cfg t (shared sys)) as [t' st']. simpl in *.
  split; [exact H1|]. apply Forall_insert; assumption.
Qed.

(** X14. However the callers of [getDriver] interleave, the registry
    only ever holds connected drivers: starting from callers that have
    not run yet and a registry of connected drivers (the empty one at
    start), every driver in the registry after any schedule is
    connected. A driver whose [connect] failed or is still pending is
    never stored. *)
Theorem cached_drivers_are_connected
        (world : World) (cfg : DbQueryConfig) (schedule : list nat)
        (names : list jstring) (st : State) :
  cached_connected st ->
  cached_connected
    (shared (run_schedule world cfg schedule
               {| tasks := List.map Called names; shared := st |})).
Proof.
  intros Hst.
  assert (Hinv : forall sys, cached_connected (shared sys) ->
                   Forall holds_connected (tasks sys) ->
                   cached_connected (shared (run_schedule world cfg schedule sys))).
  { unfold run_schedule. induction schedule as [|i schedule IH]; intros sys H1 H2.
    - exact H1.
    - simpl. destruct (run_task_keeps_connected world cfg i sys H1 H2) as [H3 H4].
      apply IH; assumption. }
  apply Hinv; [exact Hst|]. simpl.
  apply Forall_forall. intros t Ht. apply in_map_iff in Ht as (n & <- & _). exact I.
Qed.

Lemma cached_drivers_are_connected_witness :
  cached_connected
    (shared (run_schedule (flaky_world three_rows) capped_config [0; 1; 0; 1; 0; 1]%nat
               {| tasks := List.map Called [str "a"; str "a"]; shared := initial_state |})).
Proof.
  apply (cached_drivers_are_connected (flaky_world three_rows) capped_config
           [0; 1; 0; 1; 0; 1]%nat [str "a"; str "a"] initial_state).
  unfold cached_connected. simpl. apply map_Forall_empty.
Defined.

End GatewayProperties.

(** ** The drivers and the configuration *)

Section DriverProperties.

Import Format Config Drivers Gateway Fixtures.

(** X15. With a limit that is not negative, no driver hands back more
    rows than the limit, whatever the database returns. *)
Theorem rows_never_exceed_nonnegative_limit
        (toUpperCase : jstring -> jstring) (d : Driver) (sql : jstring)
        (limit timeoutMs : Z) (r : QueryResult) :
  (0 <= limit)%Z ->
  query toUpperCase d sql limit timeoutMs = Ok r ->
  (Z.of_nat (length (rows r)) <= limit)%Z.
Proof. apply query_rows_within_limit. Qed.

Lemma rows_never_exceed_nonnegative_limit_witness :
  (Z.of_nat (length [id_row 1; id_row 2]) <= 2)%Z.
Proof.
  apply (rows_never_exceed_nonnegative_limit toUpperCase_ascii
           (MysqlDriver (Some (mysql_pool three_rows))) (str "SELECT * FROM t") 2 30000
           {| rows := [id_row 1; id_row 2]; rowCount := 2; totalAvailable := None |}).
  - lia.
  - vm_compute. reflexivity.
Defined.



(** X17. The MySQL driver never reports [totalAvailable], whatever the
    statement and whatever the pool answers. *)
Theorem mysql_reports_no_total
        (toUpperCase : jstring -> jstring) (pool : option MysqlPool) (sql : jstring)
        (limit timeoutMs : Z) (r : QueryResult) :
  mysql_query toUpperCase pool sql limit timeoutMs = Ok r -> totalAvailable r = None.
Proof. apply mysql_total_never_reported. Qed.

Lemma mysql_reports_no_total_witness :
  totalAvailable {| rows := [id_row 1; id_row 2]; rowCount := 2; totalAvailable := None |}
  = None.
Proof.
  apply (mysql_reports_no_total toUpperCase_ascii (Some (mysql_pool three_rows))
           (str "SELECT * FROM t") 2 30000).
  vm_compute. reflexivity.
Defined.

(** X18. Whatever the plugin configuration says, the row cap
    [resolveConfig] returns is at most 10,000, and a configured cap up
    to 10,000 is kept as it is. *)
Theorem maxRows_capped_at_ten_thousand (raw : option RawConfig) :
  (maxRows (resolveConfig raw) <= 10000)%Z
  /\ forall r n, raw = Some r -> raw_maxRows r = Some n -> (n <= 10000)%Z ->
                 maxRows (resolveConfig raw) = n.
Proof.
  split; [apply resolveConfig_maxRows_cap|].
  intros r n -> Hn Hle. simpl. rewrite Hn. simpl. lia.
Qed.

(** X19. [resolveConnectionName] on a configuration whose
    [defaultConnection] is empty, for a request that names no
    connection: the only connection is taken; with none configured the
    call throws, and with several it throws the error that lists them
    all. *)
Theorem resolveConnectionName_with_empty_default (cfg : DbQueryConfig) :
  defaultConnection cfg = [] ->
  (forall k c, connections cfg = [(k, c)] -> resolveConnectionName cfg None = Ok k)
  /\ (connections cfg = [] ->
      resolveConnectionName cfg None = Throw (str "No database connections configured."))
  /\ (forall e1 e2 rest, connections cfg = e1 :: e2 :: rest ->
      resolveConnectionName cfg None
      = Throw (str "Multiple connections available ("
               ++ join (str ", ") (keys (connections cfg))
               ++ str "). Specify which one to use.")).
Proof.
  intros Hd. destruct (resolveConnectionName_without_default cfg Hd) as [H1 H2].
  split; [exact H1|]. split; [|exact H2].
  intros Hc. unfold resolveConnectionName. rewrite Hd, Hc. reflexivity.
Qed.

Lemma resolveConnectionName_with_empty_default_witness :
  resolveConnectionName
    {| connections := [(str "a", sqlite_connection); (str "b", sqlite_connection)];
       defaultConnection := []; maxRows := 1000; queryTimeout := 30000;
       allowMutations := false |} None
  = Throw (str "Multiple connections available (a, b). Specify which one to use.").
Proof.
  refine (proj2 (proj2 (resolveConnectionName_with_empty_default
            {| connections := [(str "a", sqlite_connection); (str "b", sqlite_connection)];
               defaultConnection := []; maxRows := 1000; queryTimeout := 30000;
               allowMutations := false |} eq_refl)) _ _ _ eq_refl).
Defined.

End DriverProperties.

(** ** Environment references and paths (config.ts) *)

Section EnvironmentProperties.

Import Config Environment.

Lemma canonical_dollar (a : char) : (canonicalize a =? canonicalize 36) = (a =? 36).
Proof.
  change (canonicalize 36) with 36. unfold canonicalize, in_range.
  destruct (97 <=? a) eqn:E1, (a <=? 122) eqn:E2; simpl; try reflexivity.
  apply N.leb_le in E1, E2.
  destruct (N.eqb_spec (a - 32) 36), (N.eqb_spec a 36); try reflexivity; lia.
Qed.

Lemma exec_env_reference (prev : option char) (s : jstring) :
  exec true re_env_reference prev s = match_env_reference s.
Proof.
  unfold exec, re_env_reference, match_env_reference.
  destruct s as [|a s]; [reflexivity|]. cbn [run]. rewrite canonical_dollar.
  destruct s as [|b s]; [destruct (a =? 36); reflexivity|].
  destruct (a =? 36); [|reflexivity]. destruct (name_start b); [|reflexivity]. cbn [andb].
  match goal with
  | |- context [star_loop true ?body ?f ?p ?t ?k] =>
      change (star_loop true body f p t k)
        with (star_loop true (run false (Cls name_char)) f p t k)
  end.
  rewrite star_class_to_rest by lia.
  pose proof (take_drop_while_length name_char s) as Hl.
  cbn [length]. f_equal. lia.
Qed.

Lemma replace_all_with_from_prev (f : jstring -> result jstring) (skip : nat)
      (prev prev' : option char) (s : jstring) :
  replace_all_with_from true re_env_reference f skip prev s
  = replace_all_with_from true re_env_reference f skip prev' s.
Proof.
  revert skip prev prev'; induction s as [|c s IH]; intros skip prev prev'; [reflexivity|].
  cbn [replace_all_with_from]. destruct skip as [|k]; [|apply IH].
  rewrite !exec_env_reference.
  reflexivity.
Qed.


Lemma match_env_reference_other (c : char) (t : jstring) :
  c <> 36 -> match_env_reference (c :: t) = None.
Proof.
  intros H. unfold match_env_reference. destruct t; [reflexivity|].
  destruct (N.eqb_spec c 36); [contradiction | reflexivity].
Qed.

(** Text without a dollar sign is kept, and the expansion goes on
    after it. *)
Lemma expand_keeps (f : jstring -> result jstring) (pre rest : jstring) :
  ~ In 36 pre ->
  replace_all_with true re_env_reference f (pre ++ rest)
  = (tail ← replace_all_with true re_env_reference f rest; Ok (pre ++ tail)).
Proof.
  unfold replace_all_with. generalize (@None char) as prev.
  induction pre as [|c pre IH]; intros prev Hno.
  - simpl. destruct (replace_all_with_from true re_env_reference f 0 prev rest); reflexivity.
  - change ((c :: pre) ++ rest) with (c :: (pre ++ rest)).
    cbn [replace_all_with_from]. rewrite exec_env_reference, match_env_reference_other.
    2:{ intros ->. apply Hno. left. reflexivity. }
    rewrite IH by (intros H; apply Hno; right; exact H).
    rewrite (replace_all_with_from_prev f 0 prev (Some c) rest).
    destruct (replace_all_with_from true re_env_reference f 0 (Some c) rest); reflexivity.
Qed.



(** X20. A text without a dollar sign is returned as it is by
    [expandEnv], whatever the environment. *)
Theorem expandEnv_without_reference (env : Env) (value : jstring) :
  ~ In 36 value -> expandEnv env value = Ok value.
Proof.
  intros H. unfold expandEnv. rewrite <- (app_nil_r value) at 1.
  rewrite expand_keeps by exact H. simpl. rewrite app_nil_r. reflexivity.
Qed.

Lemma expandEnv_without_reference_witness :
  expandEnv sample_env (str "/var/data/app.db") = Ok (str "/var/data/app.db").
Proof.
  apply (expandEnv_without_reference sample_env (str "/var/data/app.db")).
  vm_compute. intuition discriminate.
Defined.



Lemma substitution_plain (matched before after template : jstring) :
  ~ In 36 template -> substitution matched before after template = template.
Proof.
  induction template as [|c template IH]; intros H; [reflexivity|].
  cbn [substitution].
  destruct (N.eqb_spec c 36) as [->|_]; [exfalso; apply H; left; reflexivity|].
  rewrite IH; [reflexivity|]. intros Hin. apply H. right. exact Hin.
Qed.

(** X22. [resolvePath] expands the references first and the tilde
    after: a text that does not start with tilde slash once expanded
    is the expansion itself; one that does has the tilde replaced by
    the value of HOME, or by /tmp when HOME is not set (for a value
    without a dollar sign, which the replacement would read as a
    pattern); an unset variable makes it throw. *)
Theorem resolvePath_expands_then_home (env : Env) (p : jstring) :
  (forall e, expandEnv env p = Throw e -> resolvePath env p = Throw e)
  /\ (forall resolved, expandEnv env p = Ok resolved ->
        startsWith resolved (str "~/") = false -> resolvePath env p = Ok resolved)
  /\ (forall rest, expandEnv env p = Ok (126 :: 47 :: rest) ->
        ~ In 36 (nullish (env (str "HOME")) (str "/tmp")) ->
        resolvePath env p = Ok (nullish (env (str "HOME")) (str "/tmp") ++ 47 :: rest)).
Proof.
  unfold resolvePath. split; [|split].
  - intros e ->. reflexivity.
  - intros resolved -> H. change (Ok resolved ≫= ?k) with (k resolved). cbv beta.
    rewrite H. reflexivity.
  - intros rest -> Hhome. change (Ok ?r ≫= ?k) with (k r). cbv beta.
    change (startsWith (126 :: 47 :: rest) (str "~/")) with true. cbv iota.
    unfold replace_char. cbn [replace_char_from]. rewrite N.eqb_refl.
    rewrite substitution_plain by exact Hhome. reflexivity.
Qed.

Lemma resolvePath_expands_then_home_witness :
  resolvePath sample_env (str "~/data/app.db") = Ok (str "/home/u/data/app.db").
Proof.
  refine (proj2 (proj2 (resolvePath_expands_then_home sample_env (str "~/data/app.db")))
            (str "data/app.db") _ _).
  - vm_compute. reflexivity.
  - vm_compute. intuition discriminate.
Defined.

End EnvironmentProperties.
